(** * github-env-manager: the secret sealer, environment names and paging

    A shallow embedding of three pieces of [main] (the handlers file):
    - [encryptSecret], the sealed-box encryption of a secret value against
      a repository public key, with the library calls it makes
      (encoding/base64 modelled in full; nacl/box, blake2b and the
      entropy reader as an interface of primitives);
    - [isValidEnvironmentName];
    - the page slicing of [getRepositories] and [fallbackRepositorySearch].

    Go strings are byte strings: [string] here, one [ascii] per byte.
    A [[]byte] is a [list byte]. Go [int] is the 64-bit signed integer,
    modelled in [Z] with its wrap-around written out. *)

From Stdlib Require Import String Ascii.
From Stdlib Require Import ZArith NArith List Bool Lia Arith.
From Stdlib Require Import Zbitwise Eqdep_dec.
From Stdlib Require Import DecimalString.
Import ListNotations.
Local Open Scope Z_scope.

(** ** Bytes *)

Definition byte := ascii.

(** [uint(b)]: the value of a byte. *)
Definition Z_of_byte (b : byte) : Z := Z.of_N (N_of_ascii b).

(** [byte(z)]: conversion to a byte keeps the low eight bits. *)
Definition byte_of_Z (z : Z) : byte := ascii_of_N (Z.to_N (z mod 256)).

(** [[]byte(s)] and [string(bs)]. *)
Definition bytes (s : string) : list byte := list_ascii_of_string s.
Definition str (bs : list byte) : string := string_of_list_ascii bs.

(** ** Go [int] on a 64-bit platform *)

Module GoInt.
Definition min_int : Z := - 2 ^ 63.
Definition max_int : Z := 2 ^ 63 - 1.
(** Two's-complement wrap-around of an arithmetic result. *)
Definition wrap (z : Z) : Z := (z + 2 ^ 63) mod 2 ^ 64 - 2 ^ 63.
Definition add (a b : Z) : Z := wrap (a + b).
Definition sub (a b : Z) : Z := wrap (a - b).
Definition mul (a b : Z) : Z := wrap (a * b).
Definition in_range (z : Z) : Prop := min_int <= z <= max_int.
End GoInt.

(** ** Errors

    The error values that can reach [encryptSecret]'s caller.
    [Errorf prefix cause] is [fmt.Errorf(prefix + "%v", cause)]. *)

Inductive error : Type :=
| CorruptInputError (offset : Z)        (* encoding/base64 *)
| EOF                                   (* io.EOF *)
| ErrUnexpectedEOF                      (* io.ErrUnexpectedEOF *)
| ErrHashSize                           (* blake2b: invalid hash size *)
| ErrKeySize                            (* blake2b: invalid key size *)
| SysError (msg : string)               (* an error of the entropy source *)
| Errorf (prefix : string) (cause : error).

(** ** encoding/base64, [StdEncoding] *)

Module base64.

Definition encodeStd : string :=
  "ABCDEFGHIJKLMNOPQRSTUVWXYZabcdefghijklmnopqrstuvwxyz0123456789+/".

Definition StdPadding : byte := "="%char.

(** [enc.encode[i]] *)
Definition encode (i : Z) : byte :=
  nth (Z.to_nat i) (bytes encodeStd) zero.

(** [enc.decodeMap]: 0xff everywhere, then
    [decodeMap[encoder[i]] = uint8(i)] for each index of the alphabet. *)
Fixpoint fill_decodeMap (encoder : list byte) (i : Z) (m : byte -> Z)
  : byte -> Z :=
  match encoder with
  | [] => m
  | c :: rest =>
      fill_decodeMap rest (i + 1)
        (fun x => if Ascii.eqb x c then i else m x)
  end.

Definition decodeMap : byte -> Z :=
  fill_decodeMap (bytes encodeStd) 0 (fun _ => 0xff).

(** The four output characters of three source bytes. *)
Definition encode3 (val : Z) : list byte :=
  [ encode (Z.land (Z.shiftr val 18) 0x3F);
    encode (Z.land (Z.shiftr val 12) 0x3F);
    encode (Z.land (Z.shiftr val 6) 0x3F);
    encode (Z.land val 0x3F) ].

(** [Encoding.Encode]: whole groups of three bytes, then the remaining
    one or two bytes with padding. *)
Fixpoint Encode (src : list byte) : list byte :=
  match src with
  | [] => []
  | [b0] =>
      let val := Z.shiftl (Z_of_byte b0) 16 in
      [ encode (Z.land (Z.shiftr val 18) 0x3F);
        encode (Z.land (Z.shiftr val 12) 0x3F);
        StdPadding; StdPadding ]
  | [b0; b1] =>
      let val := Z.lor (Z.shiftl (Z_of_byte b0) 16)
                       (Z.shiftl (Z_of_byte b1) 8) in
      [ encode (Z.land (Z.shiftr val 18) 0x3F);
        encode (Z.land (Z.shiftr val 12) 0x3F);
        encode (Z.land (Z.shiftr val 6) 0x3F);
        StdPadding ]
  | b0 :: b1 :: b2 :: rest =>
      let val := Z.lor (Z.lor (Z.shiftl (Z_of_byte b0) 16)
                              (Z.shiftl (Z_of_byte b1) 8))
                       (Z_of_byte b2) in
      encode3 val ++ Encode rest
  end.

Definition EncodeToString (src : list byte) : string := str (Encode src).

Definition isNewline (c : byte) : bool :=
  Ascii.eqb c "010"%char || Ascii.eqb c "013"%char.

(** [for si < len(src) && (src[si] == '\n' || src[si] == '\r') { si++ }] *)
Fixpoint skipNewlines (src : list byte) (si : Z) : list byte * Z :=
  match src with
  | c :: rest => if isNewline c then skipNewlines rest (si + 1) else (src, si)
  | [] => (src, si)
  end.

(** The tail of [decodeQuantum]: four 6-bit values back into three
    bytes, of which [dlen - 1] are written. *)
Definition assemble (dbuf : list Z) (dlen : nat) : list byte :=
  let d k := nth k dbuf 0 in
  let val := Z.lor (Z.lor (Z.lor (Z.shiftl (d 0%nat) 18)
                                 (Z.shiftl (d 1%nat) 12))
                          (Z.shiftl (d 2%nat) 6))
                   (d 3%nat) in
  firstn (dlen - 1)
    [ byte_of_Z (Z.shiftr val 16);
      byte_of_Z (Z.shiftr val 8);
      byte_of_Z (Z.shiftr val 0) ].

(** After a padding character was accepted: skip newlines; anything
    left is trailing garbage.  The bytes of the quantum are written in
    both cases. *)
Definition finishPadding (src : list byte) (si : Z) (dbuf : list Z)
           (dst : list byte) : list byte * option error :=
  let '(rest, si') := skipNewlines src si in
  (dst ++ assemble dbuf (length dbuf),
   match rest with
   | [] => None
   | _ :: _ => Some (CorruptInputError si')
   end).

(** [Encoding.Decode] with [decodeQuantum] inlined: one pass over the
    input. [si] is the index of the next input byte, [dbuf] the 6-bit
    values of the quantum being read ([j = len dbuf]), [dst] the bytes
    written so far.  The result is [(dst[:n], err)].  The eight- and
    four-character fast paths of the library compute the same bytes as
    [decodeQuantum] and fall back to it on any other character. *)
Fixpoint Decode (src : list byte) (si : Z) (dbuf : list Z)
         (dst : list byte) {struct src} : list byte * option error :=
  let j := Z.of_nat (length dbuf) in
  match src with
  | [] =>
      if j =? 0 then (dst, None)
      else (dst, Some (CorruptInputError (si - j)))
  | c :: src' =>
      let si := si + 1 in
      let out := decodeMap c in
      if negb (out =? 0xff) then
        let dbuf' := dbuf ++ [out] in
        if (length dbuf' =? 4)%nat
        then Decode src' si [] (dst ++ assemble dbuf' 4)
        else Decode src' si dbuf' dst
      else if isNewline c then Decode src' si dbuf dst
      else if negb (Ascii.eqb c StdPadding) then
        (dst, Some (CorruptInputError (si - 1)))
      else
        match length dbuf with
        | 0%nat | 1%nat =>
            (* incorrect padding *)
            (dst, Some (CorruptInputError (si - 1)))
        | 2%nat =>
            (* "==" is expected, the first "=" is already consumed *)
            let '(src2, si2) := skipNewlines src' si in
            match src2 with
            | [] => (dst, Some (CorruptInputError si2))
            | c2 :: src3 =>
                if negb (Ascii.eqb c2 StdPadding)
                then (dst, Some (CorruptInputError (si2 - 1)))
                else finishPadding src3 (si2 + 1) dbuf dst
            end
        | _ => finishPadding src' si dbuf dst
        end
  end.

Definition DecodeString (s : string) : list byte * option error :=
  Decode (bytes s) 0 [] [].

End base64.

Example base64_Man : base64.EncodeToString (bytes "Man") = "TWFu"%string.
Proof. reflexivity. Qed.
Example base64_Ma : base64.EncodeToString (bytes "Ma") = "TWE="%string.
Proof. reflexivity. Qed.
Example base64_M : base64.EncodeToString (bytes "M") = "TQ=="%string.
Proof. reflexivity. Qed.
Example base64_dec_hello :
  base64.DecodeString "aGVsbG8=" = (bytes "hello", None).
Proof. reflexivity. Qed.
Example base64_dec_newline :
  base64.DecodeString (str (bytes "aGVs" ++ ["010"%char] ++ bytes "bG8="))
  = (bytes "hello", None).
Proof. reflexivity. Qed.
Example base64_dec_short :
  base64.DecodeString "aGVsbG8" = (bytes "hel", Some (CorruptInputError 4)).
Proof. reflexivity. Qed.
Example base64_dec_bad_char :
  base64.DecodeString "aG!s" = ([], Some (CorruptInputError 2)).
Proof. reflexivity. Qed.
Example base64_dec_one_pad_missing :
  base64.DecodeString "TQ=" = ([], Some (CorruptInputError 3)).
Proof. reflexivity. Qed.
Example base64_dec_pad_then_char :
  base64.DecodeString "TQ=x" = ([], Some (CorruptInputError 2)).
Proof. reflexivity. Qed.
Example base64_dec_lone_char :
  base64.DecodeString "T" = ([], Some (CorruptInputError 0)).
Proof. reflexivity. Qed.
Example base64_dec_empty : base64.DecodeString "" = ([], None).
Proof. reflexivity. Qed.
Example base64_dec_garbage :
  base64.DecodeString "TQ==TQ==" = (bytes "M", Some (CorruptInputError 4)).
Proof. reflexivity. Qed.

(** ** unicode/utf8: the decoding behind [for _, char := range name] *)

Module utf8.

Definition RuneError : Z := 0xFFFD.
Definition RuneSelf : Z := 0x80.

Definition maskx : Z := 0x3F.
Definition mask2 : Z := 0x1F.
Definition mask3 : Z := 0x0F.
Definition mask4 : Z := 0x07.
Definition locb : Z := 0x80.
Definition hicb : Z := 0xBF.

(** Entries of the [first] table: low three bits the size of the
    sequence, high four bits the index into [acceptRanges]. *)
Definition xx : Z := 0xF1.  (* invalid: size 1 *)
Definition as_ : Z := 0xF0. (* ASCII: size 1 *)
Definition s1 : Z := 0x02.
Definition s2 : Z := 0x13.
Definition s3 : Z := 0x03.
Definition s4 : Z := 0x23.
Definition s5 : Z := 0x34.
Definition s6 : Z := 0x04.
Definition s7 : Z := 0x44.

(** [first[b]], the table written as its ranges. *)
Definition first (b : Z) : Z :=
  if b <? 0x80 then as_
  else if b <? 0xC2 then xx
  else if b <? 0xE0 then s1
  else if b =? 0xE0 then s2
  else if b <? 0xED then s3
  else if b =? 0xED then s4
  else if b <? 0xF0 then s3
  else if b =? 0xF0 then s5
  else if b <? 0xF4 then s6
  else if b =? 0xF4 then s7
  else xx.

(** [acceptRanges[i]] as [(lo, hi)]; entries past the fifth are zero. *)
Definition acceptRanges (i : Z) : Z * Z :=
  if i =? 0 then (locb, hicb)
  else if i =? 1 then (0xA0, hicb)
  else if i =? 2 then (locb, 0x9F)
  else if i =? 3 then (0x90, hicb)
  else if i =? 4 then (locb, 0x8F)
  else (0, 0).

(** The runes of two-, three- and four-byte sequences. *)
Definition rune2 (b0 b1 : Z) : Z :=
Z.lor (Z.shiftl (Z.land b0 mask2) 6) (Z.land b1 maskx).

Definition rune3 (b0 b1 b2 : Z) : Z :=
Z.lor (Z.lor (Z.shiftl (Z.land b0 mask3) 12)
             (Z.shiftl (Z.land b1 maskx) 6))
      (Z.land b2 maskx).

Definition rune4 (b0 b1 b2 b3 : Z) : Z :=
Z.lor (Z.lor (Z.lor (Z.shiftl (Z.land b0 mask4) 18)
                    (Z.shiftl (Z.land b1 maskx) 12))
             (Z.shiftl (Z.land b2 maskx) 6))
      (Z.land b3 maskx).

(** The body of [DecodeRuneInString] once [x = first[s[0]]] is known:
    [n] is [len(s)] and [b0 .. b3] are [s[0] .. s[3]], of which only
    those below the size [sz] are looked at. *)
Definition decodeFirst (x n b0 b1 b2 b3 : Z) : Z * Z :=
if x >=? as_ then
  (* the mask is all ones exactly when the low bit of x is set *)
  (if Z.testbit x 0 then RuneError else b0, 1)
else
  let sz := Z.land x 7 in
  let accept := acceptRanges (Z.shiftr x 4) in
  if n <? sz then (RuneError, 1)
  else if (b1 <? fst accept) || (snd accept <? b1) then (RuneError, 1)
  else if sz <=? 2 then (rune2 b0 b1, 2)
  else if (b2 <? locb) || (hicb <? b2) then (RuneError, 1)
  else if sz <=? 3 then (rune3 b0 b1 b2, 3)
  else if (b3 <? locb) || (hicb <? b3) then (RuneError, 1)
  else (rune4 b0 b1 b2 b3, 4).

(** [DecodeRuneInString]: the rune at the head of [s] and its width. *)
Definition DecodeRuneInString (s : list byte) : Z * Z :=
match s with
| [] => (RuneError, 0)
| c0 :: t =>
    decodeFirst (first (Z_of_byte c0)) (Z.of_nat (length s))
      (Z_of_byte c0) (Z_of_byte (nth 0 t zero))
      (Z_of_byte (nth 1 t zero)) (Z_of_byte (nth 2 t zero))
end.

(** The runes a [range] loop over the string yields, in order.  [skip]
    counts the bytes that still belong to the rune decoded last. *)
Fixpoint rangeFrom (skip : nat) (s : list byte) : list Z :=
  match s with
  | [] => []
  | c :: rest =>
      match skip with
      | S k => rangeFrom k rest
      | O =>
          let '(r, width) :=
            if Z_of_byte c <? RuneSelf then (Z_of_byte c, 1)
            else DecodeRuneInString s in
          r :: rangeFrom (Z.to_nat (width - 1)) rest
      end
  end.

Definition range (s : string) : list Z := rangeFrom 0 (bytes s).

End utf8.

Example range_ascii : utf8.range "a-1" = [97; 45; 49].
Proof. reflexivity. Qed.
(* U+00E9 (C3 A9), U+20AC (E2 82 AC), a stray continuation byte *)
Example range_multibyte :
  utf8.rangeFrom 0 ["195"; "169"; "226"; "130"; "172"; "128"; "a"]%char
  = [0xE9; 0x20AC; 0xFFFD; 97].
Proof. reflexivity. Qed.

(* an overlong form (C0 80), a surrogate (ED A0 80), U+1F600 (F0 9F 98 80) *)
Example range_invalid :
  utf8.rangeFrom 0
    ["192"; "128"; "237"; "160"; "128"; "240"; "159"; "152"; "128"]%char
  = [0xFFFD; 0xFFFD; 0xFFFD; 0xFFFD; 0xFFFD; 0x1F600].
Proof. reflexivity. Qed.

(** ** [isValidEnvironmentName] *)

(** [s[i]]; [None] is the index-out-of-range panic. *)
Definition strIndex (s : string) (i : Z) : option byte :=
  if i <? 0 then None else nth_error (bytes s) (Z.to_nat i).

Definition validChar (char : Z) : bool :=
  ((char >=? 97) && (char <=? 122))       (* 'a' .. 'z' *)
  || ((char >=? 48) && (char <=? 57))     (* '0' .. '9' *)
  || (char =? 45).                        (* '-' *)

Definition hyphen : byte := "-"%char.

(** [None] would be a panic of an index expression. *)
Definition isValidEnvironmentName (name : string) : option bool :=
  let len := Z.of_nat (String.length name) in
  if (len <? 1) || (len >? 255) then Some false
  else if negb (forallb validChar (utf8.range name)) then Some false
  else
    match strIndex name 0 with
    | None => None
    | Some first =>
        if Ascii.eqb first hyphen then Some false
        else
          match strIndex name (len - 1) with
          | None => None
          | Some last =>
              if Ascii.eqb last hyphen then Some false else Some true
          end
    end.

Example env_ok : isValidEnvironmentName "prod-eu-1" = Some true.
Proof. reflexivity. Qed.
Example env_upper : isValidEnvironmentName "Prod" = Some false.
Proof. reflexivity. Qed.
Example env_trailing : isValidEnvironmentName "prod-" = Some false.
Proof. reflexivity. Qed.
Example env_empty : isValidEnvironmentName "" = Some false.
Proof. reflexivity. Qed.
(* "é" in UTF-8: two bytes, one rune, not accepted *)
Example env_non_ascii :
  isValidEnvironmentName (str ["d"; "195"; "169"; "v"]%char) = Some false.
Proof. reflexivity. Qed.

(** ** Fixed-size arrays and [copy] *)

(** [[n]byte]: the length is part of the type. *)
Record array (n : nat) : Type :=
  mkArray { elems :> list byte; elems_len : length elems = n }.
Arguments mkArray {n} _ _.
Arguments elems {n} _.
Arguments elems_len {n} _.

(** The builtin [copy(dst, src)]: the first [min(len dst, len src)]
    elements of [dst] are overwritten, the rest are kept. *)
Definition copy (dst src : list byte) : list byte :=
  firstn (length dst) src ++ skipn (length src) dst.

Lemma copy_length (dst src : list byte) :
  length (copy dst src) = length dst.
Proof.
  unfold copy. rewrite length_app, length_firstn, length_skipn. lia.
Qed.

Lemma repeat_zero_length (n : nat) : length (repeat zero n) = n.
Proof. apply repeat_length. Qed.

(** [var a [n]byte]: the zero value. *)
Definition zeroArray (n : nat) : array n :=
  mkArray (repeat zero n) (repeat_zero_length n).

(** [copy(a[:], src)] on an array. *)
Definition copyInto {n : nat} (dst : array n) (src : list byte) : array n :=
  mkArray (copy dst src) (eq_trans (copy_length dst src) (elems_len dst)).

(** ** The entropy source, an [io.Reader]

    A reader is the script of what its future reads deliver: a byte, an
    error, or the end of the stream. *)

Inductive Reader : Type :=
| Supply (b : byte) (next : Reader)
| Fault (e : error) (next : Reader)
| Dry.

(** The error of a read that stopped short, [got] being what was read
    before it: [io.ReadAtLeast] turns [io.EOF] into
    [io.ErrUnexpectedEOF] when some bytes were read, and hands every
    other error on as it is
    ([else if n > 0 && err == EOF { err = ErrUnexpectedEOF }]). *)
Definition shortReadError (err : error) (got : list byte) : error :=
  match got, err with
  | _ :: _, EOF => ErrUnexpectedEOF
  | _, _ => err
  end.

(** [io.ReadFull(r, buf)] with [len(buf) = n]: the [n] bytes, or the error
    that stopped the read ([EOF] only when nothing was read). *)
Fixpoint ReadFull (r : Reader) (n : nat) (got : list byte) {struct n}
  : (list byte + error) * Reader :=
  match n with
  | O => (inl got, r)
  | S k =>
      match r with
      | Supply b next => ReadFull next k (got ++ [b])
      | Fault e next => (inr (shortReadError e got), next)
      | Dry => (inr (shortReadError EOF got), Dry)
      end
  end.

(** ** The primitives of golang.org/x/crypto used by the sealer

    [hashT] is the state behind a [hash.Hash]; [blake2b_New] returns the
    Go pair [(hash.Hash, error)], a nil hash being [None]. *)

Class Primitives : Type := {
  hashT : Type;
  blake2b_New : Z -> list byte -> option hashT * option error;
  hash_Write : hashT -> list byte -> hashT;
  hash_Sum : hashT -> list byte -> list byte;
  (* curve25519.ScalarBaseMult *)
  ScalarBaseMult : array 32 -> array 32;
  (* box.Seal(out, message, nonce, peersPublicKey, privateKey) *)
  box_Seal : list byte -> list byte -> array 24 -> array 32 -> array 32
             -> list byte;
  (* box.Open(out, box, nonce, peersPublicKey, privateKey) *)
  box_Open : list byte -> list byte -> array 24 -> array 32 -> array 32
             -> option (list byte)
}.

(** What a call of [encryptSecret] does: return [(s, nil)], return
    [("", err)], or panic. *)
Inductive result : Type :=
| Ok (s : string)
| Err (e : error)
| Panic.

Section SecretSealer.
Context {P : Primitives}.

(** [box.GenerateKey(rand)]: 32 bytes of entropy are the private key,
    the public key is its base-point multiple. *)
Definition GenerateKey (rand : Reader)
  : (array 32 * array 32 + error) * Reader :=
  match ReadFull rand 32 [] with
  | (inr e, rand') => (inr e, rand')
  | (inl bs, rand') =>
      let privateKey := copyInto (zeroArray 32) bs in
      (inl (ScalarBaseMult privateKey, privateKey), rand')
  end.

(** The arguments [box.Seal] is called with, for a given recipient key
    and ephemeral pair; [None] when the hash is nil. *)
Definition sealNonce (ephemeralPub recipientKey : array 32)
  : option (array 24) :=
  (* hash, _ := blake2b.New(24, nil) *)
  match fst (blake2b_New 24 []) with
  | None => None
  | Some hash =>
      let hash := hash_Write hash ephemeralPub in
      let hash := hash_Write hash recipientKey in
      Some (copyInto (zeroArray 24) (hash_Sum hash []))
  end.

Definition encryptSecret (publicKey secretValue : string) (rand : Reader)
  : result * Reader :=
  let '(decodedKey, err) := base64.DecodeString publicKey in
  match err with
  | Some e => (Err (Errorf "failed to decode public key: " e), rand)
  | None =>
      let recipientKey := copyInto (zeroArray 32) decodedKey in
      match GenerateKey rand with
      | (inr e, rand') =>
          (Err (Errorf "failed to generate key pair: " e), rand')
      | (inl (ephemeralPub, ephemeralPriv), rand') =>
          match sealNonce ephemeralPub recipientKey with
          | None => (Panic, rand')
          | Some nonce =>
              let encrypted :=
                box_Seal [] (bytes secretValue) nonce recipientKey
                         ephemeralPriv in
              let encryptedMessage := elems ephemeralPub ++ encrypted in
              (Ok (base64.EncodeToString encryptedMessage), rand')
          end
      end
  end.

(** *** The receiving side (specification)

    The repository has no opening code: the recipient is GitHub. This is
    sealed-box opening as the round-trip properties word it: the
    leading 32 bytes are the ephemeral public key, the nonce is the
    24-byte unkeyed BLAKE2b digest of that key followed by the
    recipient's, and the remainder is opened with [box.Open]. *)

Definition blake2b_digest (size : Z) (data : list byte)
  : option (list byte) :=
  match fst (blake2b_New size []) with
  | None => None
  | Some hash => Some (hash_Sum (hash_Write hash data) [])
  end.

Definition unseal (sealed : list byte) (recipientPub recipientPriv : array 32)
  : option (list byte) :=
  if (length sealed <? 32)%nat then None
  else
    let ephemeralPub := copyInto (zeroArray 32) (firstn 32 sealed) in
    match blake2b_digest 24 (elems ephemeralPub ++ elems recipientPub) with
    | None => None
    | Some digest =>
        box_Open [] (skipn 32 sealed) (copyInto (zeroArray 24) digest)
                 ephemeralPub recipientPriv
    end.

End SecretSealer.

(** ** Paging of the repository list *)

Record Owner : Type := mkOwner { Login : string; OwnerID : Z }.

Record Repository : Type := mkRepository {
  ID : Z;
  Name : string;
  FullName : string;
  Description : string;
  Private : bool;
  RepoOwner : Owner
}.

(** A computation that returns or panics. *)
Inductive outcome (A : Type) : Type :=
| Returns (a : A)
| IndexOutOfRange (i : Z) (len : Z).
Arguments Returns {A} _.
Arguments IndexOutOfRange {A} _ _.

(** [page] from the query: 1 unless [strconv.Atoi] gave a positive
    number. [parsed] is [Atoi]'s result, [None] for an error or an
    absent parameter. *)
Definition pageParam (parsed : option Z) : Z :=
  match parsed with
  | Some p => if p >? 0 then p else 1
  | None => 1
  end.

(** [perPage] from the query: 25 unless [Atoi] gave a number in 1..100. *)
Definition perPageParam (parsed : option Z) : Z :=
  match parsed with
  | Some pp => if (pp >? 0) && (pp <=? 100) then pp else 25
  | None => 25
  end.

Section Paging.
Context {A : Type}.

(** [all[i]] *)
Definition sliceIndex (all : list A) (i : Z) : option A :=
  if i <? 0 then None else nth_error all (Z.to_nat i).

(** [for i := start; i < end; i++ { repos = append(repos, all[i]) }]
    with [n] iterations left. *)
Fixpoint appendRange (n : nat) (i : Z) (all repos : list A)
  : outcome (list A) :=
  match n with
  | O => Returns repos
  | S n' =>
      match sliceIndex all i with
      | None => IndexOutOfRange i (Z.of_nat (length all))
      | Some x => appendRange n' (i + 1) all (repos ++ [x])
      end
  end.

(** The "apply pagination" block, the same in [getRepositories] and
    [fallbackRepositorySearch]. *)
Definition paginate (all : list A) (page perPage : Z) : outcome (list A) :=
  let start := GoInt.mul (GoInt.sub page 1) perPage in
  let end_ := GoInt.add start perPage in
  let len := Z.of_nat (length all) in
  let start := if start >=? len then len else start in
  let end_ := if end_ >? len then len else end_ in
  appendRange (Z.to_nat (end_ - start)) start all [].

End Paging.

(** [getRepositories] without a search query, from the fetched list and
    the two parsed query parameters to the page it responds with. *)
Definition getRepositories_page (allRepos : list Repository)
           (pageQ perPageQ : option Z) : outcome (list Repository) :=
  paginate allRepos (pageParam pageQ) (perPageParam perPageQ).

(** [fallbackRepositorySearch]: filter, then the page and the number of
    matches.  [matches] stands for the case-insensitive substring test
    on name, full name, description and owner login. *)
Definition fallbackRepositorySearch (allRepos : list Repository)
           (matches : Repository -> bool) (page perPage : Z)
  : outcome (list Repository * Z) :=
  let filteredRepos := filter matches allRepos in
  match paginate filteredRepos page perPage with
  | Returns repos => Returns (repos, Z.of_nat (length filteredRepos))
  | IndexOutOfRange i len => IndexOutOfRange i len
  end.

Example paginate_second_page :
  paginate [1; 2; 3; 4; 5] 2 2 = Returns [3; 4].
Proof. reflexivity. Qed.
Example paginate_last_page :
  paginate [1; 2; 3; 4; 5] 3 2 = Returns [5].
Proof. reflexivity. Qed.
Example paginate_past_end :
  paginate [1; 2; 3; 4; 5] 4 2 = Returns [].
Proof. reflexivity. Qed.

(** ** The page information of [getRepositories] *)

(** Go's [/] on [int]: the quotient truncated toward zero. The divisor
    here is [perPage], which [perPageParam] keeps between 1 and 100. *)
Definition GoInt_div (a b : Z) : Z := GoInt.wrap (Z.quot a b).

(** The ["pagination"] object of the response. *)
Record Pagination : Type := mkPagination {
  pg_page : Z;
  pg_per_page : Z;
  pg_total_count : Z;
  pg_has_next : bool;
  pg_has_prev : bool;
  pg_total_pages : Z
}.

(** [totalPages := (totalCount + perPage - 1) / perPage],
    [hasNext := page < totalPages], [hasPrev := page > 1]. *)
Definition paginationInfo (totalCount page perPage : Z) : Pagination :=
  let totalPages :=
    GoInt_div (GoInt.sub (GoInt.add totalCount perPage) 1) perPage in
  let hasNext := page <? totalPages in
  let hasPrev := page >? 1 in
  mkPagination page perPage totalCount hasNext hasPrev totalPages.

(** ** Removing duplicates in [fetchAllRepositories] *)

(** A [map[int64]bool]: a missing key reads as [false]. *)
Definition boolMap : Type := Z -> bool.
Definition emptyBoolMap : boolMap := fun _ => false.
Definition setTrue (m : boolMap) (k : Z) : boolMap :=
  fun k' => if k' =? k then true else m k'.

(** [for _, repo := range allRepos { if !seen[repo.ID] { seen[repo.ID] =
    true; uniqueRepos = append(uniqueRepos, repo) } }] *)
Fixpoint uniqueLoop (allRepos : list Repository) (seen : boolMap)
         (uniqueRepos : list Repository) : list Repository :=
  match allRepos with
  | [] => uniqueRepos
  | repo :: rest =>
      if negb (seen (ID repo))
      then uniqueLoop rest (setTrue seen (ID repo)) (uniqueRepos ++ [repo])
      else uniqueLoop rest seen uniqueRepos
  end.

(** The second half of [fetchAllRepositories]: from everything the
    three listings returned to the list it hands back. *)
Definition removeDuplicates (allRepos : list Repository) : list Repository :=
  uniqueLoop allRepos emptyBoolMap [].

(** ** [contains] *)

Fixpoint contains (slice : list string) (item : string) : bool :=
  match slice with
  | [] => false
  | s :: rest => if String.eqb s item then true else contains rest item
  end.

(** ** Repository strings, ["owner/repo"] *)

(** [strings.Split(s, sep)] for a separator of one byte, which is how
    the handlers call it: the pieces of [s] between the separators, one
    more than there are separators. *)
Fixpoint splitBytes (sep : byte) (s : list byte) : list (list byte) :=
  match s with
  | [] => [[]]
  | c :: rest =>
      if Ascii.eqb c sep then [] :: splitBytes sep rest
      else
        match splitBytes sep rest with
        | part :: parts => (c :: part) :: parts
        | [] => [[c]]
        end
  end.

Definition Split (s : string) (sep : byte) : list string :=
  map str (splitBytes sep (bytes s)).

Definition slash : byte := "/"%char.

(** [parts := strings.Split(repo, "/")], [len(parts) != 2] rejected,
    [owner, repoName := parts[0], parts[1]]: the test every bulk handler
    (sync, export, import, compare) makes on a repository string. *)
Definition ownerAndRepo (repo : string) : option (string * string) :=
  match Split repo slash with
  | [owner; repoName] => Some (owner, repoName)
  | _ => None
  end.

Example split_owner_repo :
  Split "octo/hello" slash = ["octo"; "hello"]%string.
Proof. reflexivity. Qed.
Example split_none : Split "octo" slash = ["octo"%string].
Proof. reflexivity. Qed.
Example split_empty : Split "" slash = [""%string].
Proof. reflexivity. Qed.
Example split_edges :
  Split "/a//" slash = [""; "a"; ""; ""]%string.
Proof. reflexivity. Qed.
Example ownerAndRepo_bare_slash : ownerAndRepo "/" = Some (""%string, ""%string).
Proof. reflexivity. Qed.
Example paginationInfo_five_by_two :
  paginationInfo 5 2 2 = mkPagination 2 2 5 true true 3.
Proof. reflexivity. Qed.

(** ** The HTTP shell: responses, sessions and the GitHub client *)

(** What [c.JSON] is given: a status and a value ([gin.H] is an object;
    its fields are listed in the order of the source). *)
#[local] Unset Elimination Schemes.
Inductive JSON : Type :=
| JNull
| JBool (b : bool)
| JNumber (n : Z)
| JString (s : string)
| JArray (items : list JSON)
| JObject (fields : list (string * JSON)).
#[local] Set Elimination Schemes.

Record Response : Type := mkResponse { Status : Z; Body : JSON }.

Definition StatusOK : Z := 200.
Definition StatusCreated : Z := 201.
Definition StatusNoContent : Z := 204.
Definition StatusBadRequest : Z := 400.
Definition StatusUnauthorized : Z := 401.
Definition StatusInternalServerError : Z := 500.

(** [gin.H{"error": msg}] and [gin.H{"message": msg}] *)
Definition errorBody (msg : string) : JSON := JObject [("error"%string, JString msg)].
Definition messageBody (msg : string) : JSON := JObject [("message"%string, JString msg)].

Record User : Type := mkUser {
  UserLogin : string;
  UserName : string;
  UserAvatarURL : string;
  UserToken : string
}.

(** [var authenticatedUsers = make(map[string]User)] *)
Definition userMap : Type := string -> option User.
Definition noUsers : userMap := fun _ => None.
Definition putUser (m : userMap) (sessionID : string) (u : User) : userMap :=
  fun k => if String.eqb k sessionID then Some u else m k.

(** What a handler reads of its [*gin.Context]: [GetHeader] and [Query]
    give the empty string for what is absent. *)
Record Context : Type := mkContext {
  GetHeader : string -> string;
  Param : string -> string;
  Query : string -> string
}.

(** The line feed that ends a printed line. *)
Definition newline : string := String "010"%char EmptyString.

(** [err.Error()] *)
Fixpoint errorString (e : error) : string :=
  match e with
  | CorruptInputError n =>
      "illegal base64 data at input byte "
      ++ NilZero.string_of_int (Z.to_int n)
  | EOF => "EOF"
  | ErrUnexpectedEOF => "unexpected EOF"
  | ErrHashSize => "blake2b: invalid hash size"
  | ErrKeySize => "blake2b: invalid key size"
  | SysError msg => msg
  | Errorf prefix cause => prefix ++ errorString cause
  end.

(** The values of go-github the handlers use. *)
Record GhUser : Type := mkGhUser {
  GetLogin : string; GetName : string; GetAvatarURL : string
}.
Record PublicKey : Type := mkPublicKey { GetKeyID : string; GetKey : string }.
Record EncryptedSecret : Type := mkEncryptedSecret {
  SecretName : string; KeyID : string; EncryptedValue : string
}.
Record DeploymentRequest : Type := mkDeploymentRequest {
  Ref : string; Environment : string; DeploymentDescription : string
}.

(** A request of net/http as the handlers build it, and what they read
    of a response. *)
Record Request : Type := mkRequest {
  Method : string;
  URL : string;
  Header : list (string * string);
  RequestBody : string
}.
Record HttpResponse : Type := mkHttpResponse {
  StatusCode : Z; ResponseBody : string
}.

(** [req.Header.Set(key, value)] *)
Definition Header_Set (req : Request) (key value : string) : Request :=
  mkRequest (Method req) (URL req)
    (filter (fun kv => negb (String.eqb (fst kv) key)) (Header req)
     ++ [(key, value)])
    (RequestBody req).

(** [type Variable struct] *)
Record RepoVariable : Type := mkRepoVariable {
  VarName : string;
  VarValue : string;
  VarCreatedAt : string;
  VarUpdatedAt : string
}.

(** The GitHub API behind the client, as far as these handlers call it.
    [World] is whatever GitHub holds; a call takes the token the client
    was made with, and gives its result, or the text of its error, and
    the world after it. *)
Class GitHub : Type := {
  World : Type;
  Users_Get : string -> World -> (GhUser + string) * World;
  Repositories_Get :
    string -> string -> string -> World -> (Z + string) * World;
  Actions_GetRepoPublicKey :
    string -> string -> string -> World -> (PublicKey + string) * World;
  Actions_GetEnvPublicKey :
    string -> Z -> string -> World -> (PublicKey + string) * World;
  Actions_CreateOrUpdateRepoSecret :
    string -> string -> string -> EncryptedSecret -> World
    -> option string * World;
  Actions_CreateOrUpdateEnvSecret :
    string -> Z -> string -> EncryptedSecret -> World
    -> option string * World;
  Repositories_CreateDeployment :
    string -> string -> string -> DeploymentRequest -> World
    -> option string * World;
  (* net/http: whether [http.NewRequest] accepts the URL, and
     [client.Do] *)
  urlParses : string -> bool;
  Do : Request -> World -> (HttpResponse + string) * World;
  (* [json.NewDecoder(resp.Body).Decode(&userData)] *)
  decodeUserData : string -> option GhUser;
  (* the same into [struct { Variables []Variable }] *)
  decodeVariables : string -> option (list RepoVariable);
  (* [json.Marshal] of a [map[string]string], given by its entries *)
  jsonMarshal : list (string * string) -> string
}.

(** [http.NewRequest(method, url, body)] with one of the methods the
    handlers pass (GET, PUT, POST): it fails only on the URL. *)
Definition NewRequest {G : GitHub} (method url body : string)
  : Request + string :=
  if urlParses url then inl (mkRequest method url [] body)
  else inr "invalid URL"%string.

Section Handlers.
Context {P : Primitives} {G : GitHub}.

(** What a handler can touch: the session map, GitHub, the entropy
    source, standard output and the clock ([now] is
    [time.Now().Format("2006-01-02T15:04:05Z")]). *)
Record State : Type := mkState {
  authenticatedUsers : userMap;
  github : World;
  entropy : Reader;
  stdout : list string;
  now : string
}.

Definition withUsers (st : State) (m : userMap) : State :=
  mkState m (github st) (entropy st) (stdout st) (now st).
Definition withGithub (st : State) (w : World) : State :=
  mkState (authenticatedUsers st) w (entropy st) (stdout st) (now st).
Definition withEntropy (st : State) (r : Reader) : State :=
  mkState (authenticatedUsers st) (github st) r (stdout st) (now st).
Definition withStdout (st : State) (out : list string) : State :=
  mkState (authenticatedUsers st) (github st) (entropy st) out (now st).

(** A handler body up to some point: it goes on with a value, or it has
    answered ([c.JSON(...); return]). *)
Definition Handler (A : Type) : Type := State -> (A + Response) * State.

Definition ret {A : Type} (a : A) : Handler A := fun st => (inl a, st).

Definition bind {A B : Type} (m : Handler A) (k : A -> Handler B)
  : Handler B :=
  fun st =>
    match m st with
    | (inl a, st') => k a st'
    | (inr resp, st') => (inr resp, st')
    end.

(** [c.JSON(status, body); return] *)
Definition answer {A : Type} (status : Z) (body : JSON) : Handler A :=
  fun st => (inr (mkResponse status body), st).

(** The response and the state a handler leaves. *)
Definition run (h : Handler Response) (st : State) : Response * State :=
  match h st with
  | (inl resp, st') => (resp, st')
  | (inr resp, st') => (resp, st')
  end.

(** [fmt.Printf(line)] *)
Definition Printf (line : string) : Handler unit :=
  fun st => (inl tt, withStdout st (stdout st ++ [line])).

(** A call through the GitHub client. *)
Definition call {A : Type} (op : World -> A * World) : Handler A :=
  fun st => let '(a, w) := op (github st) in (inl a, withGithub st w).

(** A panic in a handler: [gin.Default()] recovers and answers 500. *)
Definition recovered {A : Type} : Handler A :=
  answer StatusInternalServerError JNull.

End Handlers.

Declare Scope handler_scope.
Delimit Scope handler_scope with handler.
Notation "x <- m ;; k" := (bind m (fun x => k))
  (at level 61, m at next level, right associativity) : handler_scope.
Notation "m ;;; k" := (bind m (fun _ => k))
  (at level 61, right associativity) : handler_scope.

Section HandlerBodies.
Context {P : Primitives} {G : GitHub}.
Local Open Scope handler_scope.
Local Open Scope string_scope.

(** [getAuthenticatedUser]: the user of the session named by the
    [X-Session-ID] header, or the text of the error. *)
Definition getAuthenticatedUser (c : Context) (users : userMap)
  : User + string :=
  let sessionID := GetHeader c "X-Session-ID" in
  if String.eqb sessionID "" then inr "no session"
  else
    match users sessionID with
    | None => inr "invalid session"
    | Some user => inl user
    end.

(** The opening of every handler that needs a user. *)
Definition authenticated (c : Context) : Handler User :=
  fun st =>
    match getAuthenticatedUser c (authenticatedUsers st) with
    | inr _ =>
        answer StatusUnauthorized (errorBody "Authentication required") st
    | inl user => ret user st
    end.

(** [c.ShouldBindJSON(&req)], given what the body binds to ([None] for a
    body that does not bind). *)
Definition ShouldBindJSON {A : Type} (bound : option A) (msg : string)
  : Handler A :=
  match bound with
  | None => answer StatusBadRequest (errorBody msg)
  | Some req => ret req
  end.

(** [validateToken]; [bound] is the token of the request body. *)
Definition validateToken (c : Context) (bound : option string)
  : Handler Response :=
  token <- ShouldBindJSON bound "Invalid request body" ;;
  got <- call (Users_Get token) ;;
  match got with
  | inr _ => answer StatusUnauthorized (errorBody "Invalid token")
  | inl user =>
      let sessionID := "session_" ++ GetLogin user in
      fun st =>
        let st' :=
          withUsers st
            (putUser (authenticatedUsers st) sessionID
               (mkUser (GetLogin user) (GetName user) (GetAvatarURL user)
                       token)) in
        answer StatusOK
          (JObject
             [("sessionId", JString sessionID);
              ("user",
               JObject [("login", JString (GetLogin user));
                        ("name", JString (GetName user));
                        ("avatarUrl", JString (GetAvatarURL user))])])
          st'
  end.

(** [authenticateWithPAT]; [bound] is the token of the request body. *)
Definition authenticateWithPAT (c : Context) (bound : option string)
  : Handler Response :=
  token <- ShouldBindJSON bound "Token is required" ;;
  match NewRequest "GET" "https://api.github.com/user" "" with
  | inr _ =>
      answer StatusInternalServerError (errorBody "Failed to create request")
  | inl req2 =>
      let req2 := Header_Set req2 "Authorization" ("token " ++ token) in
      let req2 := Header_Set req2 "Accept" "application/vnd.github.v3+json" in
      got <- call (Do req2) ;;
      match got with
      | inr _ =>
          answer StatusInternalServerError
            (errorBody "Failed to validate token")
      | inl resp =>
          if negb (StatusCode resp =? StatusOK)%Z then
            answer StatusUnauthorized (errorBody "Invalid token")
          else
            match decodeUserData (ResponseBody resp) with
            | None =>
                answer StatusInternalServerError
                  (errorBody "Failed to parse user data")
            | Some userData =>
                let user :=
                  mkUser (GetLogin userData) (GetName userData)
                         (GetAvatarURL userData) token in
                let sessionID := "session_" ++ GetLogin userData in
                fun st =>
                  answer StatusOK
                    (JObject
                       [("message", JString "Authentication successful");
                        ("user",
                         JObject [("login", JString (UserLogin user));
                                  ("name", JString (UserName user));
                                  ("avatarUrl",
                                   JString (UserAvatarURL user))]);
                        ("sessionId", JString sessionID)])
                    (withUsers st
                       (putUser (authenticatedUsers st) sessionID user))
            end
      end
  end.

(** [getAuthStatus] *)
Definition getAuthStatus (c : Context) : Handler Response :=
  fun st =>
    let sessionID := GetHeader c "X-Session-ID" in
    if String.eqb sessionID "" then
      answer StatusUnauthorized (errorBody "No session") st
    else
      match authenticatedUsers st sessionID with
      | None => answer StatusUnauthorized (errorBody "Invalid session") st
      | Some user =>
          answer StatusOK
            (JObject [("login", JString (UserLogin user));
                      ("name", JString (UserName user));
                      ("avatarUrl", JString (UserAvatarURL user))])
            st
      end.

(** [createEnvironment]; [bound] is the name and the description of the
    request body. *)
Definition createEnvironment (c : Context) (bound : option (string * string))
  : Handler Response :=
  user <- authenticated c ;;
  let owner := Param c "owner" in
  let repo := Param c "repo" in
  req <- ShouldBindJSON bound "Invalid request body" ;;
  let '(name, description) := req in
  if String.eqb name "" then
    answer StatusBadRequest (errorBody "Environment name is required")
  else
    match isValidEnvironmentName name with
    | None => recovered
    | Some false =>
        answer StatusBadRequest
          (errorBody "Environment name can only contain lowercase letters, numbers, and hyphens")
    | Some true =>
        let deploymentReq := mkDeploymentRequest "main" name description in
        err <- call (Repositories_CreateDeployment (UserToken user) owner repo
                       deploymentReq) ;;
        match err with
        | Some e =>
            answer StatusInternalServerError
              (errorBody ("Failed to create environment: " ++ e))
        | None =>
            fun st =>
              answer StatusCreated
                (JObject [("name", JString name);
                          ("description", JString description);
                          ("created_at", JString (now st))])
                st
        end
    end.

(** [encryptedValue, err := encryptSecret(publicKey.GetKey(), value)] in
    a handler: the entropy is drawn from the state. *)
Definition encrypt (publicKey : PublicKey) (value : string)
  : Handler string :=
  fun st =>
    let '(res, r) := encryptSecret (GetKey publicKey) value (entropy st) in
    let st' := withEntropy st r in
    match res with
    | Panic => recovered st'
    | Err e =>
        (Printf ("Failed to encrypt secret: " ++ errorString e ++ newline) ;;;
         answer StatusInternalServerError
           (errorBody ("Failed to encrypt secret: " ++ errorString e))) st'
    | Ok encryptedValue => ret encryptedValue st'
    end.

(** A GitHub call whose error is printed and answered with 500. *)
Definition orFail {A : Type} (op : World -> (A + string) * World)
           (what : string) : Handler A :=
  got <- call op ;;
  match got with
  | inr e =>
      Printf (what ++ ": " ++ e ++ newline) ;;;
      answer StatusInternalServerError (errorBody (what ++ ": " ++ e))
  | inl a => ret a
  end.

(** The end of the four secret handlers: submit, and answer by the
    outcome. *)
Definition submitted (err : option string) (failure : string)
           (status : Z) (success : string) : Handler Response :=
  match err with
  | Some e =>
      Printf ("GitHub API Error: " ++ e ++ newline) ;;;
      answer StatusInternalServerError (errorBody (failure ++ ": " ++ e))
  | None => answer status (messageBody success)
  end.

(** [createSecret]; [bound] is the name and the value of the body. *)
Definition createSecret (c : Context) (bound : option (string * string))
  : Handler Response :=
  user <- authenticated c ;;
  let owner := Param c "owner" in
  let repo := Param c "repo" in
  req <- ShouldBindJSON bound "Invalid request body" ;;
  let '(name, value) := req in
  publicKey <- orFail (Actions_GetRepoPublicKey (UserToken user) owner repo)
                 "Failed to get repository public key" ;;
  encryptedValue <- encrypt publicKey value ;;
  let secret := mkEncryptedSecret name (GetKeyID publicKey) encryptedValue in
  err <- call (Actions_CreateOrUpdateRepoSecret (UserToken user) owner repo
                 secret) ;;
  submitted err "Failed to create repository secret"
    StatusCreated "Repository secret created successfully".

(** [updateSecret]; [bound] is the value of the body, the name comes
    from the path. *)
Definition updateSecret (c : Context) (bound : option string)
  : Handler Response :=
  user <- authenticated c ;;
  let owner := Param c "owner" in
  let repo := Param c "repo" in
  let name := Param c "name" in
  value <- ShouldBindJSON bound "Invalid request body" ;;
  publicKey <- orFail (Actions_GetRepoPublicKey (UserToken user) owner repo)
                 "Failed to get repository public key" ;;
  encryptedValue <- encrypt publicKey value ;;
  let secret := mkEncryptedSecret name (GetKeyID publicKey) encryptedValue in
  err <- call (Actions_CreateOrUpdateRepoSecret (UserToken user) owner repo
                 secret) ;;
  submitted err "Failed to update repository secret"
    StatusOK "Repository secret updated successfully".

(** [createEnvironmentSecret] *)
Definition createEnvironmentSecret (c : Context)
           (bound : option (string * string)) : Handler Response :=
  user <- authenticated c ;;
  let owner := Param c "owner" in
  let repo := Param c "repo" in
  let env := Param c "env" in
  req <- ShouldBindJSON bound "Invalid request body" ;;
  let '(name, value) := req in
  repositoryID <- orFail (Repositories_Get (UserToken user) owner repo)
                    "Failed to get repository" ;;
  publicKey <- orFail (Actions_GetEnvPublicKey (UserToken user)
                         repositoryID env)
                 "Failed to get environment public key" ;;
  encryptedValue <- encrypt publicKey value ;;
  let secret := mkEncryptedSecret name (GetKeyID publicKey) encryptedValue in
  err <- call (Actions_CreateOrUpdateEnvSecret (UserToken user)
                 repositoryID env secret) ;;
  submitted err "Failed to create environment secret"
    StatusCreated "Environment secret created successfully".

(** [updateEnvironmentSecret] *)
Definition updateEnvironmentSecret (c : Context) (bound : option string)
  : Handler Response :=
  user <- authenticated c ;;
  let owner := Param c "owner" in
  let repo := Param c "repo" in
  let env := Param c "env" in
  let name := Param c "name" in
  value <- ShouldBindJSON bound "Invalid request body" ;;
  repositoryID <- orFail (Repositories_Get (UserToken user) owner repo)
                    "Failed to get repository" ;;
  publicKey <- orFail (Actions_GetEnvPublicKey (UserToken user)
                         repositoryID env)
                 "Failed to get environment public key" ;;
  encryptedValue <- encrypt publicKey value ;;
  let secret := mkEncryptedSecret name (GetKeyID publicKey) encryptedValue in
  err <- call (Actions_CreateOrUpdateEnvSecret (UserToken user)
                 repositoryID env secret) ;;
  submitted err "Failed to update environment secret"
    StatusOK "Environment secret updated successfully".

(** *** [syncVariables] *)

(** The body of the sync request. *)
Record SyncRequest : Type := mkSyncRequest {
  SourceRepo : string;
  SourceEnv : string;
  TargetRepos : list string;
  TargetEnvs : list string;
  VariableNames : list string;
  Overwrite : bool
}.

(** [%d] *)
Definition itoa (n : Z) : string := NilZero.string_of_int (Z.to_int n).

Definition variablesURL (owner repo : string) : string :=
  "https://api.github.com/repos/" ++ owner ++ "/" ++ repo
  ++ "/actions/variables".

(** The running totals of the loops: [syncedCount] and [errors]. *)
Definition Tally : Type := (Z * list string)%type.

(** The body of the innermost loop for a variable that is to be synced:
    one PUT to the target repository. *)
Definition syncOne (user : User) (targetRepo targetOwner targetRepoName
                    targetEnv : string) (variable : RepoVariable)
           (tally : Tally) (w : World) : Tally * World :=
  let '(syncedCount, errors) := tally in
  let targetURL := variablesURL targetOwner targetRepoName in
  let jsonPayload :=
    jsonMarshal [("name", VarName variable); ("value", VarValue variable)] in
  match NewRequest "PUT" targetURL jsonPayload with
  | inr _ =>
      ((syncedCount,
        app errors ["Failed to create request for " ++ targetRepo ++ "/"
                    ++ targetEnv ++ "/" ++ VarName variable]), w)
  | inl targetReq =>
      let targetReq :=
        Header_Set targetReq "Authorization" ("token " ++ UserToken user) in
      let targetReq :=
        Header_Set targetReq "Accept" "application/vnd.github.v3+json" in
      let targetReq :=
        Header_Set targetReq "Content-Type" "application/json" in
      match Do targetReq w with
      | (inr _, w') =>
          ((syncedCount,
            app errors ["Failed to sync " ++ VarName variable ++ " to "
                        ++ targetRepo ++ "/" ++ targetEnv ++ "/"
                        ++ VarName variable]), w')
      | (inl targetResp, w') =>
          if ((StatusCode targetResp =? StatusCreated)
              || (StatusCode targetResp =? StatusNoContent))%Z
          then ((GoInt.add syncedCount 1, errors), w')
          else
            ((syncedCount,
              app errors ["Failed to sync " ++ VarName variable ++ " to "
                          ++ targetRepo ++ "/" ++ targetEnv ++ " (status: "
                          ++ itoa (StatusCode targetResp) ++ ")"]), w')
      end
  end.

(** [len(req.VariableNames) == 0 || contains(req.VariableNames, name)] *)
Definition toSync (variableNames : list string) (variable : RepoVariable)
  : bool :=
  (length variableNames =? 0)%nat || contains variableNames (VarName variable).

(** [for _, variable := range sourceVariables] *)
Fixpoint syncVariablesOf (user : User) (variableNames : list string)
         (targetRepo targetOwner targetRepoName targetEnv : string)
         (sourceVariables : list RepoVariable) (tally : Tally) (w : World)
  : Tally * World :=
  match sourceVariables with
  | [] => (tally, w)
  | variable :: rest =>
      let '(tally', w') :=
        if toSync variableNames variable
        then syncOne user targetRepo targetOwner targetRepoName targetEnv
               variable tally w
        else (tally, w) in
      syncVariablesOf user variableNames targetRepo targetOwner
        targetRepoName targetEnv rest tally' w'
  end.

(** [for _, targetEnv := range req.TargetEnvs] *)
Fixpoint syncEnvs (user : User) (variableNames : list string)
         (targetRepo targetOwner targetRepoName : string)
         (targetEnvs : list string) (sourceVariables : list RepoVariable)
         (tally : Tally) (w : World) : Tally * World :=
  match targetEnvs with
  | [] => (tally, w)
  | targetEnv :: rest =>
      let '(tally', w') :=
        syncVariablesOf user variableNames targetRepo targetOwner
          targetRepoName targetEnv sourceVariables tally w in
      syncEnvs user variableNames targetRepo targetOwner targetRepoName
        rest sourceVariables tally' w'
  end.

(** [for _, targetRepo := range req.TargetRepos] *)
Fixpoint syncTargets (user : User) (variableNames : list string)
         (targetRepos targetEnvs : list string)
         (sourceVariables : list RepoVariable) (tally : Tally) (w : World)
  : Tally * World :=
  match targetRepos with
  | [] => (tally, w)
  | targetRepo :: rest =>
      let '(tally', w') :=
        match ownerAndRepo targetRepo with
        | None =>
            ((fst tally,
              app (snd tally)
                  ["Invalid target repo format: " ++ targetRepo]), w)
        | Some (targetOwner, targetRepoName) =>
            syncEnvs user variableNames targetRepo targetOwner targetRepoName
              targetEnvs sourceVariables tally w
        end in
      syncTargets user variableNames rest targetEnvs sourceVariables tally' w'
  end.

(** [syncVariables]; [bound] is the request body. *)
Definition syncVariables (c : Context) (bound : option SyncRequest)
  : Handler Response :=
  user <- authenticated c ;;
  req <- ShouldBindJSON bound "Invalid request body" ;;
  match ownerAndRepo (SourceRepo req) with
  | None =>
      answer StatusBadRequest
        (errorBody "Invalid source repo format. Use 'owner/repo'")
  | Some (sourceOwner, sourceRepo) =>
      match NewRequest "GET" (variablesURL sourceOwner sourceRepo) "" with
      | inr _ =>
          answer StatusInternalServerError
            (errorBody "Failed to create request")
      | inl sourceReq =>
          let sourceReq :=
            Header_Set sourceReq "Authorization"
              ("token " ++ UserToken user) in
          let sourceReq :=
            Header_Set sourceReq "Accept" "application/vnd.github.v3+json" in
          got <- call (Do sourceReq) ;;
          match got with
          | inr _ =>
              answer StatusInternalServerError
                (errorBody "Failed to fetch source variables")
          | inl sourceResp =>
              if negb (StatusCode sourceResp =? StatusOK)%Z then
                answer StatusInternalServerError
                  (errorBody "Failed to fetch source variables from GitHub")
              else
                match decodeVariables (ResponseBody sourceResp) with
                | None =>
                    answer StatusInternalServerError
                      (errorBody "Failed to parse source variables")
                | Some sourceVariables =>
                    done <- call (syncTargets user (VariableNames req)
                                    (TargetRepos req) (TargetEnvs req)
                                    sourceVariables (0%Z, [])) ;;
                    let '(syncedCount, errors) := done in
                    answer StatusOK
                      (JObject
                         (app
                            [("message",
                              JString ("Successfully synced "
                                       ++ itoa syncedCount ++ " variables"));
                             ("synced_count", JNumber syncedCount)]
                            match errors with
                            | [] => []
                            | _ :: _ =>
                                [("errors", JArray (map JString errors))]
                            end))
                end
          end
      end
  end.

(** ** [exportVariables]: the loop over the repositories

    A Go [map[string]V] that is only written and looked up. *)
Definition stringMap (V : Type) : Type := string -> option V.
Definition emptyMap {V : Type} : stringMap V := fun _ => None.
Definition mapSet {V : Type} (m : stringMap V) (key : string) (value : V)
  : stringMap V :=
  fun k => if String.eqb k key then Some value else m k.

(** [for _, variable := range variablesResponse.Variables {
       repoData[variable.Name] = variable.Value }] *)
Fixpoint collect (variables : list RepoVariable) (repoData : stringMap string)
  : stringMap string :=
  match variables with
  | [] => repoData
  | variable :: rest =>
      collect rest (mapSet repoData (VarName variable) (VarValue variable))
  end.



End HandlerBodies.

(** ** A small instance of the primitives

    Stand-ins with the shape of the real ones, used to run the sealer on
    concrete inputs: the public key of a private key is the key itself,
    the shared secret of a pair is the exclusive-or of their first bytes
    (so both sides derive the same one), the box is a 16-byte tag
    followed by the masked message, and the hash collects what is
    written to it. [New] checks its arguments as blake2b does. *)

Module Toy.

Definition xorByte (a b : byte) : byte :=
  match a, b with
  | Ascii a0 a1 a2 a3 a4 a5 a6 a7, Ascii b0 b1 b2 b3 b4 b5 b6 b7 =>
      Ascii (xorb a0 b0) (xorb a1 b1) (xorb a2 b2) (xorb a3 b3)
            (xorb a4 b4) (xorb a5 b5) (xorb a6 b6) (xorb a7 b7)
  end.

Definition mask (nonce : array 24) (pk sk : array 32) : byte :=
  xorByte (xorByte (hd zero pk) (hd zero sk)) (hd zero nonce).

Definition bytes_eqb (a b : list byte) : bool :=
  if list_eq_dec ascii_dec a b then true else false.

Definition Seal (out message : list byte) (nonce : array 24)
           (pk sk : array 32) : list byte :=
  let k := mask nonce pk sk in
  out ++ repeat k 16 ++ map (xorByte k) message.

Definition Open (out box : list byte) (nonce : array 24)
           (pk sk : array 32) : option (list byte) :=
  let k := mask nonce pk sk in
  if (length box <? 16)%nat then None
  else if bytes_eqb (firstn 16 box) (repeat k 16)
       then Some (out ++ map (xorByte k) (skipn 16 box))
       else None.

(** The hash state: digest size and the data written so far. *)
Definition state : Type := Z * list byte.

Definition New (size : Z) (key : list byte) : option state * option error :=
  if (size <? 1) || (size >? 64) then (None, Some ErrHashSize)
  else if (Z.of_nat (length key) >? 64) then (None, Some ErrKeySize)
  else (Some (size, []), None).

Definition Sum (h : state) (b : list byte) : list byte :=
  let '(size, data) := h in
  b ++ repeat (fold_right xorByte zero data) (Z.to_nat size).

Definition primitives : Primitives := {|
  hashT := state;
  blake2b_New := New;
  hash_Write := fun h p => (fst h, snd h ++ p);
  hash_Sum := Sum;
  ScalarBaseMult := fun sk => sk;
  box_Seal := Seal;
  box_Open := Open
|}.

(** An entropy source that delivers the given bytes and then dries up. *)
Fixpoint supply (bs : list byte) : Reader :=
  match bs with
  | [] => Dry
  | b :: rest => Supply b (supply rest)
  end.

Definition seedA : list byte := repeat "A"%char 32.
Definition seedB : list byte := repeat "B"%char 32.

(** A recipient key pair and the public key as GitHub would send it. *)
Definition recipientPriv : array 32 := copyInto (zeroArray 32) (repeat "k"%char 32).
Definition recipientPub : array 32 := recipientPriv.
Definition recipientPubBase64 : string :=
  base64.EncodeToString recipientPub.

End Toy.

(** ** The same with clamped scalars

    curve25519 clamps a scalar before it multiplies
    ([e[0] &= 248; e[31] &= 127; e[31] |= 64]), in [ScalarBaseMult] and
    in the [ScalarMult] behind [box.Seal] and [box.Open] alike, while
    [box.GenerateKey] hands out the 32 bytes as they were read.  The
    stand-ins of [Toy] with that step put in: the public key of a
    private key is its clamped form, and the box is made with the
    clamped private key. *)

Module Clamped.

Definition clampByte (i : nat) (b : byte) : byte :=
  if (i =? 0)%nat then byte_of_Z (Z.land (Z_of_byte b) 248)
  else if (i =? 31)%nat
       then byte_of_Z (Z.lor (Z.land (Z_of_byte b) 127) 64)
       else b.

Fixpoint clampFrom (i : nat) (e : list byte) : list byte :=
  match e with
  | [] => []
  | b :: rest => clampByte i b :: clampFrom (S i) rest
  end.

Definition clamp (k : array 32) : array 32 :=
  copyInto (zeroArray 32) (clampFrom 0 (elems k)).

Definition primitives : Primitives := {|
  hashT := Toy.state;
  blake2b_New := Toy.New;
  hash_Write := fun h p => (fst h, snd h ++ p);
  hash_Sum := Toy.Sum;
  ScalarBaseMult := clamp;
  box_Seal := fun out message nonce pk sk =>
    Toy.Seal out message nonce pk (clamp sk);
  box_Open := fun out box nonce pk sk =>
    Toy.Open out box nonce pk (clamp sk)
|}.


Definition recipientPriv : array 32 := Toy.recipientPriv.
Definition recipientPub : array 32 := clamp recipientPriv.
Definition recipientPubBase64 : string :=
  base64.EncodeToString (elems recipientPub).

End Clamped.

Example toy_seal :
  fst (encryptSecret (P := Toy.primitives) Toy.recipientPubBase64 "hi"
         (Toy.supply Toy.seedA))
  = Ok "QUFBQUFBQUFBQUFBQUFBQUFBQUFBQUFBQUFBQUFBQUEqKioqKioqKioqKioqKioqQkM=".
Proof. vm_compute. reflexivity. Qed.

(** ** A small GitHub

    A stand-in for the API, used to run the handlers: the world is the
    list of secrets submitted so far (the newest first), the token
    "ghp_good" belongs to the user "octo", every repository has the id
    42 and the public key of [Toy], and a page at the API answers 200
    with an empty body, which reads as the two variables A and B; a PUT
    is answered 201 for the variables of "octo/hello" and 404
    elsewhere. *)

Module ToyHub.

Definition octo : GhUser := mkGhUser "octo" "Octo Cat" "https://example.test/octo.png".

Definition publicKey : PublicKey := mkPublicKey "key-1" Toy.recipientPubBase64.

Definition hub : GitHub := {|
  World := list EncryptedSecret;
  Users_Get := fun token w =>
    (if String.eqb token "ghp_good" then inl octo
     else inr "401 Bad credentials"%string, w);
  Repositories_Get := fun _ _ _ w => (inl 42, w);
  Actions_GetRepoPublicKey := fun _ _ _ w => (inl publicKey, w);
  Actions_GetEnvPublicKey := fun _ _ _ w => (inl publicKey, w);
  Actions_CreateOrUpdateRepoSecret := fun _ _ _ secret w => (None, secret :: w);
  Actions_CreateOrUpdateEnvSecret := fun _ _ _ secret w => (None, secret :: w);
  Repositories_CreateDeployment := fun _ _ _ _ w => (None, w);
  urlParses := fun _ => true;
  Do := fun req w =>
    (inl (mkHttpResponse
            (if String.eqb (Method req) "PUT"
             then if String.eqb (URL req)
                       "https://api.github.com/repos/octo/hello/actions/variables"
                  then 201 else 404
             else 200) ""), w);
  decodeUserData := fun _ => Some octo;
  decodeVariables := fun _ =>
    Some [mkRepoVariable "A" "1" "" ""; mkRepoVariable "B" "2" "" ""];
  jsonMarshal := fun entries =>
    String.concat ","%string
      (map (fun kv => (fst kv ++ "=" ++ snd kv)%string) entries)
|}.

(** A request with the given session header and path parameters. *)
Definition request (sessionID : string) (params : list (string * string))
  : Context :=
  mkContext
    (fun h => if String.eqb h "X-Session-ID" then sessionID else ""%string)
    (fun k =>
       match find (fun kv => String.eqb (fst kv) k) params with
       | Some kv => snd kv
       | None => ""%string
       end)
    (fun _ => ""%string).

Definition octoUser : User :=
  mkUser "octo" "Octo Cat" "https://example.test/octo.png" "ghp_good".

(** A state in which "octo" is logged in. *)
Definition loggedIn (r : Reader) : State (G := hub) :=
  mkState (G := hub) (putUser noUsers "session_octo" octoUser)
    ([] : list EncryptedSecret) r [] "2024-01-01T00:00:00Z".

(** A state in which nobody is logged in. *)
Definition fresh (r : Reader) : State (G := hub) :=
  mkState (G := hub) noUsers ([] : list EncryptedSecret) r []
    "2024-01-01T00:00:00Z".

Definition repoParams : list (string * string) :=
  [("owner", "octo"); ("repo", "hello"); ("env", "prod"); ("name", "API_KEY")]%string.

End ToyHub.

Example toy_createSecret :
  let '(resp, st) :=
    run (createSecret (P := Toy.primitives) (G := ToyHub.hub)
           (ToyHub.request "session_octo" ToyHub.repoParams)
           (Some ("API_KEY", "hi")%string))
        (ToyHub.loggedIn (Toy.supply Toy.seedA)) in
  resp = mkResponse 201 (messageBody "Repository secret created successfully")
  /\ github st
     = [mkEncryptedSecret "API_KEY" "key-1"
          "QUFBQUFBQUFBQUFBQUFBQUFBQUFBQUFBQUFBQUFBQUEqKioqKioqKioqKioqKioqQkM="].
Proof. vm_compute. split; reflexivity. Qed.

Example toy_createSecret_no_session :
  run (createSecret (P := Toy.primitives) (G := ToyHub.hub)
         (ToyHub.request "" ToyHub.repoParams) (Some ("API_KEY", "hi")%string))
      (ToyHub.loggedIn (Toy.supply Toy.seedA))
  = (mkResponse 401 (errorBody "Authentication required"),
     ToyHub.loggedIn (Toy.supply Toy.seedA)).
Proof. reflexivity. Qed.

(** * Properties *)

(** ** Bytes and bit arithmetic *)

Lemma Z_of_byte_range (b : byte) : 0 <= Z_of_byte b < 256.
Proof.
  unfold Z_of_byte. pose proof (N_ascii_bounded b). lia.
Qed.

Lemma byte_of_Z_of_byte (b : byte) : byte_of_Z (Z_of_byte b) = b.
Proof.
  unfold byte_of_Z. rewrite Z.mod_small by apply Z_of_byte_range.
  unfold Z_of_byte. rewrite N2Z.id. apply ascii_N_embedding.
Qed.

Lemma Z_of_byte_of_Z (z : Z) : 0 <= z < 256 -> Z_of_byte (byte_of_Z z) = z.
Proof.
  intros Hz. unfold byte_of_Z, Z_of_byte.
  rewrite Z.mod_small by assumption.
  rewrite N_ascii_embedding by lia. lia.
Qed.

Lemma Z_of_byte_inj (a b : byte) : Z_of_byte a = Z_of_byte b -> a = b.
Proof.
  intros H. rewrite <- (byte_of_Z_of_byte a), <- (byte_of_Z_of_byte b).
  now rewrite H.
Qed.

Lemma bytes_str (bs : list byte) : bytes (str bs) = bs.
Proof. apply list_ascii_of_string_of_list_ascii. Qed.

Lemma str_bytes (s : string) : str (bytes s) = s.
Proof. apply string_of_list_ascii_of_string. Qed.

Lemma bytes_length (s : string) : length (bytes s) = String.length s.
Proof. induction s as [| c s IH]; simpl; [reflexivity | now rewrite IH]. Qed.

Lemma land_mul_pow2_small (a b k : Z) :
  0 <= k -> 0 <= b < 2 ^ k -> Z.land (a * 2 ^ k) b = 0.
Proof.
  intros Hk Hb. apply Z.bits_inj'. intros n Hn.
  rewrite Z.land_spec, Z.bits_0.
  destruct (Z.lt_ge_cases n k) as [Hlt | Hge].
  - now rewrite Z.mul_pow2_bits_low.
  - rewrite <- (Z.mod_small b (2 ^ k)) by lia.
    rewrite Z.mod_pow2_bits_high by lia. apply andb_false_r.
Qed.

(** An [|] of a multiple of [2^k] with a value below [2^k] is a sum. *)
Lemma lor_add (x b k : Z) :
  0 <= k -> 0 <= b < 2 ^ k -> x mod 2 ^ k = 0 -> Z.lor x b = x + b.
Proof.
  intros Hk Hb Hx.
  assert (Hpos : 0 < 2 ^ k) by (apply Z.pow_pos_nonneg; lia).
  assert (Hdiv : x = x / 2 ^ k * 2 ^ k)
    by (rewrite (Z.div_mod x (2 ^ k)) at 1 by lia; rewrite Hx; lia).
  pose proof (Z.add_lor_land x b) as H.
  rewrite Hdiv in H at 2.
  rewrite land_mul_pow2_small in H by assumption. lia.
Qed.

Lemma land_63 (a : Z) : Z.land a 0x3F = a mod 64.
Proof. change 0x3F with (Z.ones 6). now rewrite Z.land_ones by lia. Qed.

Lemma shiftr_div (a k : Z) : 0 <= k -> Z.shiftr a k = a / 2 ^ k.
Proof. intros. now apply Z.shiftr_div_pow2. Qed.

(** ** base64: decoding inverts encoding *)

Module base64_facts.
Import base64.

Lemma decodeMap_encode (i : Z) : 0 <= i < 64 -> decodeMap (encode i) = i.
Proof.
  intros Hi.
  assert (Hall : forallb
            (fun n => decodeMap (encode (Z.of_nat n)) =? Z.of_nat n)
            (seq 0 64) = true) by (vm_compute; reflexivity).
  rewrite forallb_forall in Hall.
  specialize (Hall (Z.to_nat i)).
  rewrite Z2Nat.id in Hall by lia.
  apply Z.eqb_eq, Hall, in_seq. lia.
Qed.

Lemma Decode_valid (c : byte) (src : list byte) (si : Z)
      (dbuf : list Z) (dst : list byte) :
  decodeMap c <> 0xff ->
  Decode (c :: src) si dbuf dst =
    if (length (dbuf ++ [decodeMap c]) =? 4)%nat
    then Decode src (si + 1) [] (dst ++ assemble (dbuf ++ [decodeMap c]) 4)
    else Decode src (si + 1) (dbuf ++ [decodeMap c]) dst.
Proof.
  intros Hc. cbn [Decode].
  destruct (decodeMap c =? 0xff) eqn:E; [apply Z.eqb_eq in E; contradiction |].
  reflexivity.
Qed.

Lemma Decode_sextet (s : Z) (src : list byte) (si : Z)
      (dbuf : list Z) (dst : list byte) :
  0 <= s < 64 ->
  Decode (encode s :: src) si dbuf dst =
    if (length (dbuf ++ [s]) =? 4)%nat
    then Decode src (si + 1) [] (dst ++ assemble (dbuf ++ [s]) 4)
    else Decode src (si + 1) (dbuf ++ [s]) dst.
Proof.
  intros Hs. rewrite Decode_valid; rewrite decodeMap_encode by assumption.
  - reflexivity.
  - lia.
Qed.

(** One padding character closes a quantum of three characters. *)
Lemma Decode_pad1 (s0 s1 s2 si : Z) (dst : list byte) :
  Decode [StdPadding] si [s0; s1; s2] dst =
    (dst ++ assemble [s0; s1; s2] 3, None).
Proof. reflexivity. Qed.

(** Two padding characters close a quantum of two characters. *)
Lemma Decode_pad2 (s0 s1 si : Z) (dst : list byte) :
  Decode [StdPadding; StdPadding] si [s0; s1] dst =
    (dst ++ assemble [s0; s1] 2, None).
Proof. reflexivity. Qed.

Ltac pow_consts :=
  change (2 ^ 18) with 262144 in *; change (2 ^ 16) with 65536 in *;
  change (2 ^ 12) with 4096 in *; change (2 ^ 8) with 256 in *;
  change (2 ^ 6) with 64 in *; change (2 ^ 0) with 1 in *.

Ltac arith := pow_consts; Z.div_mod_to_equations; lia.

Lemma sextet_range (a : Z) : 0 <= Z.land a 0x3F < 64.
Proof. rewrite land_63. apply Z.mod_pos_bound. lia. Qed.

(** The value packed from three bytes. *)
Lemma pack3 (b0 b1 b2 : Z) :
  0 <= b0 < 256 -> 0 <= b1 < 256 -> 0 <= b2 < 256 ->
  Z.lor (Z.lor (Z.shiftl b0 16) (Z.shiftl b1 8)) b2
  = b0 * 65536 + b1 * 256 + b2.
Proof.
  intros H0 H1 H2. rewrite !Z.shiftl_mul_pow2 by lia. pow_consts.
  rewrite (lor_add (b0 * 65536) (b1 * 256) 16) by arith.
  rewrite (lor_add _ b2 8) by arith. reflexivity.
Qed.

(** The value packed from four 6-bit values. *)
Lemma pack4 (s0 s1 s2 s3 : Z) :
  0 <= s0 < 64 -> 0 <= s1 < 64 -> 0 <= s2 < 64 -> 0 <= s3 < 64 ->
  Z.lor (Z.lor (Z.lor (Z.shiftl s0 18) (Z.shiftl s1 12)) (Z.shiftl s2 6)) s3
  = s0 * 262144 + s1 * 4096 + s2 * 64 + s3.
Proof.
  intros H0 H1 H2 H3. rewrite !Z.shiftl_mul_pow2 by lia. pow_consts.
  rewrite (lor_add (s0 * 262144) (s1 * 4096) 18) by arith.
  rewrite (lor_add _ (s2 * 64) 12) by arith.
  rewrite (lor_add _ s3 6) by arith. reflexivity.
Qed.

(** Splitting a 24-bit value into four 6-bit values and packing them
    again gives the bytes of the value back. *)
Lemma assemble_split (v : Z) (n : nat) :
  0 <= v < 16777216 ->
  assemble [ Z.land (Z.shiftr v 18) 0x3F; Z.land (Z.shiftr v 12) 0x3F;
             Z.land (Z.shiftr v 6) 0x3F; Z.land v 0x3F ] n
  = firstn (n - 1)
      [ byte_of_Z (v / 65536); byte_of_Z (v / 256); byte_of_Z v ].
Proof.
  intros Hv. unfold assemble. cbn [nth].
  rewrite pack4 by apply sextet_range.
  rewrite !land_63, !shiftr_div by lia. pow_consts.
  replace (v / 262144 mod 64 * 262144 + v / 4096 mod 64 * 4096
           + v / 64 mod 64 * 64 + v mod 64) with v by arith.
  now rewrite Z.div_1_r.
Qed.

(** The same with the last one or two 6-bit values left at zero, as
    for a padded quantum: the low bits of [v] must be clear. *)
Lemma assemble_split3 (v : Z) :
  0 <= v < 16777216 -> v mod 256 = 0 ->
  assemble [ Z.land (Z.shiftr v 18) 0x3F; Z.land (Z.shiftr v 12) 0x3F;
             Z.land (Z.shiftr v 6) 0x3F ] 3
  = [ byte_of_Z (v / 65536); byte_of_Z (v / 256) ].
Proof.
  intros Hv Hlow. unfold assemble. cbn [nth].
  rewrite pack4 by (try apply sextet_range; lia).
  rewrite !land_63, !shiftr_div by lia. pow_consts.
  replace (v / 262144 mod 64 * 262144 + v / 4096 mod 64 * 4096
           + v / 64 mod 64 * 64 + 0) with v by arith.
  reflexivity.
Qed.

Lemma assemble_split2 (v : Z) :
  0 <= v < 16777216 -> v mod 65536 = 0 ->
  assemble [ Z.land (Z.shiftr v 18) 0x3F; Z.land (Z.shiftr v 12) 0x3F ] 2
  = [ byte_of_Z (v / 65536) ].
Proof.
  intros Hv Hlow. unfold assemble. cbn [nth].
  rewrite pack4 by (try apply sextet_range; lia).
  rewrite !land_63, !shiftr_div by lia. pow_consts.
  replace (v / 262144 mod 64 * 262144 + v / 4096 mod 64 * 4096
           + 0 * 64 + 0) with v by arith.
  reflexivity.
Qed.

Lemma byte_of_Z_eq (z : Z) (b : byte) :
  z mod 256 = Z_of_byte b -> byte_of_Z z = b.
Proof.
  intros H. unfold byte_of_Z. rewrite H. unfold Z_of_byte.
  rewrite N2Z.id. apply ascii_N_embedding.
Qed.

Lemma Encode_cons3 (b0 b1 b2 : byte) (rest : list byte) :
  Encode (b0 :: b1 :: b2 :: rest) =
    encode3 (Z.lor (Z.lor (Z.shiftl (Z_of_byte b0) 16)
                          (Z.shiftl (Z_of_byte b1) 8)) (Z_of_byte b2))
    ++ Encode rest.
Proof. reflexivity. Qed.

Lemma Decode_Encode_len (n : nat) :
  forall (bs : list byte) (si : Z) (dst : list byte),
    (length bs <= n)%nat ->
    Decode (Encode bs) si [] dst = (dst ++ bs, None).
Proof.
  induction n as [| n IH]; intros bs si dst Hlen.
  - destruct bs; [| simpl in Hlen; lia]. simpl. now rewrite app_nil_r.
  - destruct bs as [| b0 [| b1 [| b2 rest]]].
    + simpl. now rewrite app_nil_r.
    + (* one byte, two padding characters *)
      pose proof (Z_of_byte_range b0) as H0.
      cbn [Encode].
      rewrite Decode_sextet by apply sextet_range. cbn [app length Nat.eqb].
      rewrite Decode_sextet by apply sextet_range. cbn [app length Nat.eqb].
      rewrite Decode_pad2.
      rewrite assemble_split2;
        rewrite ?Z.shiftl_mul_pow2 by lia; [| arith | arith].
      f_equal. f_equal. f_equal. apply byte_of_Z_eq. arith.
    + (* two bytes, one padding character *)
      pose proof (Z_of_byte_range b0) as H0.
      pose proof (Z_of_byte_range b1) as H1.
      cbn [Encode].
      assert (Hv : Z.lor (Z.shiftl (Z_of_byte b0) 16)
                         (Z.shiftl (Z_of_byte b1) 8)
                   = Z_of_byte b0 * 65536 + Z_of_byte b1 * 256).
      { rewrite !Z.shiftl_mul_pow2 by lia. pow_consts.
        now rewrite (lor_add _ _ 16) by arith. }
      rewrite Hv.
      do 3 (rewrite Decode_sextet by apply sextet_range;
            cbn [app length Nat.eqb]).
      rewrite Decode_pad1.
      rewrite assemble_split3 by arith.
      f_equal. f_equal. f_equal; [| f_equal]; apply byte_of_Z_eq; arith.
    + (* a whole group of three bytes *)
      pose proof (Z_of_byte_range b0) as H0.
      pose proof (Z_of_byte_range b1) as H1.
      pose proof (Z_of_byte_range b2) as H2.
      rewrite Encode_cons3, pack3 by assumption.
      unfold encode3. cbn [app].
      do 4 (rewrite Decode_sextet by apply sextet_range;
            cbn [app length Nat.eqb]).
      rewrite assemble_split by lia. cbn [firstn Nat.sub].
      rewrite IH by (simpl in Hlen; lia).
      rewrite <- app_assoc. cbn [app].
      f_equal. f_equal.
      f_equal; [| f_equal; [| f_equal]]; apply byte_of_Z_eq; arith.
Qed.

(** Decoding the encoding of [bs] gives [bs] and no error. *)
Theorem Decode_Encode (bs : list byte) (si : Z) (dst : list byte) :
  Decode (Encode bs) si [] dst = (dst ++ bs, None).
Proof. now apply (Decode_Encode_len (length bs)). Qed.

Corollary DecodeString_EncodeToString (bs : list byte) :
  DecodeString (EncodeToString bs) = (bs, None).
Proof.
  unfold DecodeString, EncodeToString. rewrite bytes_str.
  apply Decode_Encode.
Qed.

End base64_facts.

(** ** Arrays, [copy] and the entropy reader *)

Lemma array_ext {n : nat} (a b : array n) : elems a = elems b -> a = b.
Proof.
  destruct a as [xa Ha], b as [xb Hb]. simpl. intros ->.
  f_equal. apply UIP_dec, Nat.eq_dec.
Qed.

Lemma firstn_app_exact {A : Type} (l1 l2 : list A) :
  firstn (length l1) (l1 ++ l2) = l1.
Proof. induction l1 as [| x l1 IH]; simpl; [now destruct l2 | now rewrite IH]. Qed.

Lemma skipn_app_exact {A : Type} (l1 l2 : list A) :
  skipn (length l1) (l1 ++ l2) = l2.
Proof. induction l1 as [| x l1 IH]; simpl; [reflexivity | exact IH]. Qed.

(** [copy] of a source as long as the destination replaces it whole. *)
Lemma copy_exact (dst src : list byte) :
  length src = length dst -> copy dst src = src.
Proof.
  intros H. unfold copy. rewrite <- H, firstn_all.
  rewrite skipn_all2 by lia. apply app_nil_r.
Qed.

(** What [copy] into a zeroed array leaves there: the source cut to the
    array's length, then zeros. *)
Lemma copy_zero (n : nat) (src : list byte) :
  copy (repeat zero n) src = firstn n src ++ repeat zero (n - length src).
Proof.
  unfold copy. rewrite repeat_length. f_equal.
  revert src. induction n as [| n IH]; intros src.
  - now rewrite skipn_nil.
  - destruct src as [| x src]; [reflexivity |]. simpl. apply IH.
Qed.

Lemma copyInto_exact {n : nat} (src : list byte) :
  length src = n -> elems (copyInto (zeroArray n) src) = src.
Proof.
  intros H. simpl. apply copy_exact. now rewrite repeat_length.
Qed.

Lemma copyInto_elems {n : nat} (a : array n) :
  copyInto (zeroArray n) (elems a) = a.
Proof. apply array_ext, copyInto_exact, elems_len. Qed.

Lemma ReadFull_length (n : nat) :
  forall (r r' : Reader) (got bs : list byte),
    ReadFull r n got = (inl bs, r') -> length bs = (length got + n)%nat.
Proof.
  induction n as [| n IH]; intros r r' got bs H; simpl in H.
  - inversion H; subst. lia.
  - destruct r as [b next | e next |]; try discriminate.
    apply IH in H. rewrite length_app in H. simpl in H. lia.
Qed.

(** ** The toy primitives satisfy the laws asked of the real ones *)

Module Toy_facts.
Import Toy.
#[local] Existing Instance primitives.

Lemma xorByte_comm (a b : byte) : xorByte a b = xorByte b a.
Proof.
  destruct a, b. unfold xorByte. f_equal; apply xorb_comm.
Qed.

Lemma xorByte_invol (a k : byte) : xorByte k (xorByte k a) = a.
Proof.
  destruct a, k. unfold xorByte.
  f_equal; rewrite <- xorb_assoc, xorb_nilpotent; apply xorb_false_l.
Qed.

Lemma bytes_eqb_refl (a : list byte) : bytes_eqb a a = true.
Proof.
  unfold bytes_eqb. destruct (list_eq_dec ascii_dec a a); congruence.
Qed.

Lemma New_24 : blake2b_New (Primitives := primitives) 24 [] = (Some (24, []), None).
Proof. reflexivity. Qed.

Lemma Write_app (h : state) (a b : list byte) :
  hash_Write (Primitives := primitives) (hash_Write h a) b = hash_Write h (a ++ b).
Proof. simpl. now rewrite app_assoc. Qed.

Lemma Sum_24 (h : state) (d : list byte) :
  fst (blake2b_New (Primitives := primitives) 24 []) = Some h ->
  length (hash_Sum (hash_Write h d) []) = 24%nat.
Proof.
  rewrite New_24. intros H. injection H as <-.
  cbn [hash_Sum hash_Write primitives Sum fst snd app].
  now rewrite repeat_length.
Qed.

Lemma Seal_overhead (m : list byte) (n : array 24) (pk sk : array 32) :
  length (box_Seal (Primitives := primitives) [] m n pk sk) = (length m + 16)%nat.
Proof.
  cbn [box_Seal primitives]. unfold Seal. cbn [app].
  rewrite length_app, repeat_length, length_map. lia.
Qed.

Lemma Open_Seal (m : list byte) (n : array 24) (skR skE : array 32) :
  box_Open (Primitives := primitives) []
    (box_Seal [] m n (ScalarBaseMult skR) skE) n (ScalarBaseMult skE) skR
  = Some m.
Proof.
  cbn [box_Open box_Seal ScalarBaseMult primitives].
  unfold Open, Seal. cbn [app].
  assert (Hk : mask n skE skR = mask n skR skE)
    by (unfold mask; f_equal; apply xorByte_comm).
  rewrite Hk. set (k := mask n skR skE).
  rewrite length_app, repeat_length.
  replace (16 + length (map (xorByte k) m) <? 16)%nat with false
    by (symmetry; apply Nat.ltb_ge; lia).
  pose proof (firstn_app_exact (repeat k 16) (map (xorByte k) m)) as Hf.
  pose proof (skipn_app_exact (repeat k 16) (map (xorByte k) m)) as Hs.
  rewrite repeat_length in Hf, Hs. rewrite Hf, Hs, bytes_eqb_refl.
  f_equal. rewrite map_map. rewrite <- (map_id m) at 2.
  apply map_ext. intros a. apply xorByte_invol.
Qed.

Lemma recipientPub_decodes :
  base64.DecodeString recipientPubBase64
  = (elems (ScalarBaseMult (Primitives := primitives) recipientPriv), None).
Proof. apply base64_facts.DecodeString_EncodeToString. Qed.

Lemma ReadFull_seedA :
  ReadFull (supply (seedA ++ seedB)) 32 [] = (inl seedA, supply seedB).
Proof. reflexivity. Qed.

End Toy_facts.

(** ** The sealer *)

(** The contracts of the library primitives that the properties below
    rely on, each a statement about one [Primitives] instance. *)
Section Laws.
Context (P : Primitives).

(** [blake2b.New(24, nil)] returns a hash. *)
Definition hash_available : Prop :=
  exists h : hashT, fst (blake2b_New 24 []) = Some h.


(** Writing in two pieces hashes the concatenation. *)
Definition hash_streams : Prop :=
  forall (h : hashT) (a b : list byte),
    hash_Write (hash_Write h a) b = hash_Write h (a ++ b).

(** A hash made with size 24 sums to 24 bytes. *)
Definition digest_24 : Prop :=
  forall (h : hashT) (d : list byte),
    fst (blake2b_New 24 []) = Some h ->
    length (hash_Sum (hash_Write h d) []) = 24%nat.

(** [box.Overhead]: the box is 16 bytes longer than the message. *)
Definition box_overhead : Prop :=
  forall (m : list byte) (n : array 24) (pk sk : array 32),
    length (box_Seal [] m n pk sk) = (length m + 16)%nat.

(** A box sealed to one key pair with another opens with the other
    halves of the two pairs under the same nonce. *)
Definition box_opens : Prop :=
  forall (m : list byte) (n : array 24) (skR skE : array 32),
    box_Open [] (box_Seal [] m n (ScalarBaseMult skR) skE) n
             (ScalarBaseMult skE) skR = Some m.
End Laws.

Section SealerProperties.
Context {P : Primitives}.

(** The private key [GenerateKey] makes of 32 bytes of entropy. *)
Definition privOf (seed : list byte) : array 32 :=
  copyInto (zeroArray 32) seed.

(** The sealed message for a recipient key, a seed and a nonce. *)
Definition sealedWith (recipientKey : array 32) (seed : list byte)
           (nonce : array 24) (m : string) : list byte :=
  elems (ScalarBaseMult (privOf seed))
  ++ box_Seal [] (bytes m) nonce recipientKey (privOf seed).

(** [encryptSecret] by cases on what its primitives return. *)
Lemma encryptSecret_run (pk m : string) (r : Reader) :
  encryptSecret pk m r =
    match base64.DecodeString pk with
    | (_, Some e) => (Err (Errorf "failed to decode public key: " e), r)
    | (bs, None) =>
        match ReadFull r 32 [] with
        | (inr e, r') => (Err (Errorf "failed to generate key pair: " e), r')
        | (inl seed, r') =>
            let rk := copyInto (zeroArray 32) bs in
            match sealNonce (ScalarBaseMult (privOf seed)) rk with
            | None => (Panic, r')
            | Some nonce =>
                (Ok (base64.EncodeToString (sealedWith rk seed nonce m)), r')
            end
        end
    end.
Proof.
  unfold encryptSecret, GenerateKey.
  destruct (base64.DecodeString pk) as [bs [e |]]; [reflexivity |].
  destruct (ReadFull r 32 []) as [[seed | e] r']; reflexivity.
Qed.

Lemma sealNonce_some (h : hashT) (pub rk : array 32) :
  fst (blake2b_New 24 []) = Some h ->
  sealNonce pub rk =
    Some (copyInto (zeroArray 24)
            (hash_Sum (hash_Write (hash_Write h pub) rk) [])).
Proof. intros H. unfold sealNonce. now rewrite H. Qed.

Lemma encryptSecret_ok (h : hashT) (pk m : string) (r r' : Reader)
      (bs seed : list byte) :
  fst (blake2b_New 24 []) = Some h ->
  base64.DecodeString pk = (bs, None) ->
  ReadFull r 32 [] = (inl seed, r') ->
  exists nonce : array 24,
    sealNonce (ScalarBaseMult (privOf seed)) (copyInto (zeroArray 32) bs)
    = Some nonce /\
    encryptSecret pk m r =
      (Ok (base64.EncodeToString
             (sealedWith (copyInto (zeroArray 32) bs) seed nonce m)), r').
Proof.
  intros Hh Hd Hr. rewrite encryptSecret_run, Hd, Hr. cbv zeta.
  rewrite (sealNonce_some h) by assumption.
  eexists. split; reflexivity.
Qed.

Lemma sealedWith_length (rk : array 32) (seed : list byte)
      (nonce : array 24) (m : string) :
  box_overhead P ->
  length (sealedWith rk seed nonce m) = (32 + length (bytes m) + 16)%nat.
Proof.
  intros Hov. unfold sealedWith.
  rewrite length_app, elems_len, Hov. lia.
Qed.

(** Opening what was sealed to a matching key pair. *)
Lemma unseal_sealedWith (h : hashT) (skR : array 32) (seed : list byte)
      (m : string) :
  fst (blake2b_New 24 []) = Some h ->
  hash_streams P -> box_opens P ->
  forall nonce : array 24,
    sealNonce (ScalarBaseMult (privOf seed)) (ScalarBaseMult skR)
    = Some nonce ->
    unseal (sealedWith (ScalarBaseMult skR) seed nonce m)
           (ScalarBaseMult skR) skR = Some (bytes m).
Proof.
  intros Hh Hstream Hopen nonce Hn.
  rewrite (sealNonce_some h) in Hn by assumption.
  injection Hn as <-.
  unfold unseal, sealedWith.
  set (pub := ScalarBaseMult (privOf seed)).
  set (ct := box_Seal _ _ _ _ _).
  assert (Hlen : (length (elems pub ++ ct) <? 32)%nat = false).
  { apply Nat.ltb_ge. rewrite length_app, elems_len. lia. }
  rewrite Hlen.
  pose proof (firstn_app_exact (elems pub) ct) as Hf.
  pose proof (skipn_app_exact (elems pub) ct) as Hs.
  rewrite elems_len in Hf, Hs. rewrite Hf, Hs, copyInto_elems.
  unfold blake2b_digest. rewrite Hh, <- Hstream.
  subst ct pub. apply Hopen.
Qed.

(** Sealing to a valid key succeeds when the entropy arrives, and the
    result opens to the plaintext. *)
Lemma seal_then_unseal (skR : array 32) (pk m : string) (r r' : Reader)
      (seed : list byte) :
  hash_available P -> hash_streams P -> box_opens P ->
  base64.DecodeString pk = (elems (ScalarBaseMult skR), None) ->
  ReadFull r 32 [] = (inl seed, r') ->
  exists (nonce : array 24),
    encryptSecret pk m r =
      (Ok (base64.EncodeToString
             (sealedWith (ScalarBaseMult skR) seed nonce m)), r') /\
    unseal (sealedWith (ScalarBaseMult skR) seed nonce m)
           (ScalarBaseMult skR) skR = Some (bytes m).
Proof.
  intros [h Hh] Hstream Hopen Hd Hr.
  destruct (encryptSecret_ok h pk m r r' _ seed Hh Hd Hr) as (nonce & Hn & Hrun).
  rewrite copyInto_elems in Hn, Hrun.
  exists nonce. split; [exact Hrun |].
  now apply (unseal_sealedWith h).
Qed.

End SealerProperties.

Section SealerClaims.
Context {P : Primitives}.

(** C1. Round trip: for a recipient key pair whose public key is what
    the base64 string decodes to (32 bytes), and any plaintext bytes,
    [encryptSecret] returns a string when the entropy source delivers
    its 32 bytes; that string decodes from base64 without error, and
    unsealing the decoded bytes with the recipient's private key gives
    back exactly the plaintext. *)
Theorem seal_round_trip (skR : array 32) (pk m : string) (r r' : Reader)
        (seed : list byte) :
  hash_available P -> hash_streams P -> box_opens P ->
  base64.DecodeString pk = (elems (ScalarBaseMult skR), None) ->
  ReadFull r 32 [] = (inl seed, r') ->
  exists (out : string) (sealed : list byte),
    encryptSecret pk m r = (Ok out, r') /\
    base64.DecodeString out = (sealed, None) /\
    unseal sealed (ScalarBaseMult skR) skR = Some (bytes m).
Proof.
  intros Hh Hs Ho Hd Hr.
  destruct (seal_then_unseal skR pk m r r' seed Hh Hs Ho Hd Hr)
    as (nonce & Hrun & Hopen).
  eexists. eexists. split; [exact Hrun |].
  split; [apply base64_facts.DecodeString_EncodeToString | exact Hopen].
Qed.

(** C2. Layout: for a key that decodes to 32 bytes, every string
    [encryptSecret] returns is the standard padded base64 encoding of
    the 32-byte ephemeral public key followed by the box of the
    plaintext under the decoded key, and it decodes to
    [32 + len(plaintext) + 16] bytes; and such a string is returned
    whenever the entropy source delivers and the hash is made. *)
Theorem sealed_output_layout (pk m : string) (r : Reader) (bs : list byte) :
  box_overhead P ->
  base64.DecodeString pk = (bs, None) -> length bs = 32%nat ->
  (forall out : string,
      fst (encryptSecret pk m r) = Ok out ->
      exists (ephemeralPub ephemeralPriv recipientKey : array 32)
             (nonce : array 24),
        fst (GenerateKey r) = inl (ephemeralPub, ephemeralPriv) /\
        elems recipientKey = bs /\
        let encrypted :=
          box_Seal [] (bytes m) nonce recipientKey ephemeralPriv in
        out = base64.EncodeToString (elems ephemeralPub ++ encrypted) /\
        length (elems ephemeralPub) = 32%nat /\
        base64.DecodeString out = (elems ephemeralPub ++ encrypted, None) /\
        length (elems ephemeralPub ++ encrypted)
        = (32 + length (bytes m) + 16)%nat)
  /\ (hash_available P ->
      forall (seed : list byte) (r' : Reader),
        ReadFull r 32 [] = (inl seed, r') ->
        exists out : string, encryptSecret pk m r = (Ok out, r')).
Proof.
  intros Hov Hd Hlen. split.
  - intros out Hout. rewrite encryptSecret_run, Hd in Hout.
    unfold GenerateKey.
    destruct (ReadFull r 32 []) as [[seed | e] r']; [| discriminate].
    cbv zeta in Hout.
    destruct (sealNonce _ _) as [nonce |]; [| discriminate].
    simpl in Hout. injection Hout as <-.
    exists (ScalarBaseMult (privOf seed)), (privOf seed),
      (copyInto (zeroArray 32) bs), nonce.
    split; [reflexivity |].
    split; [now apply copyInto_exact |].
    cbv zeta. split; [reflexivity |].
    split; [apply elems_len |].
    split; [apply base64_facts.DecodeString_EncodeToString |].
    now apply sealedWith_length.
  - intros [h Hh] seed r' Hr.
    destruct (encryptSecret_ok h pk m r r' bs seed Hh Hd Hr)
      as (nonce & _ & Hrun).
    eexists. exact Hrun.
Qed.

(** C3. Nonce: in every encryption [encryptSecret] performs, the nonce
    handed to [box.Seal] is the 24-byte unkeyed BLAKE2b digest of the
    ephemeral public key followed by the recipient key, in that
    order. *)
Theorem nonce_is_blake2b_digest (pk m : string) (r r' : Reader)
        (bs seed : list byte) (out : string) :
  hash_streams P -> digest_24 P ->
  base64.DecodeString pk = (bs, None) ->
  ReadFull r 32 [] = (inl seed, r') ->
  fst (encryptSecret pk m r) = Ok out ->
  let ephemeralPriv := privOf seed in
  let ephemeralPub := ScalarBaseMult ephemeralPriv in
  let recipientKey := copyInto (zeroArray 32) bs in
  exists nonce : array 24,
    sealNonce ephemeralPub recipientKey = Some nonce /\
    blake2b_digest 24 (elems ephemeralPub ++ elems recipientKey)
    = Some (elems nonce) /\
    out = base64.EncodeToString
            (elems ephemeralPub
             ++ box_Seal [] (bytes m) nonce recipientKey ephemeralPriv).
Proof.
  intros Hs H24 Hd Hr Hout ephemeralPriv ephemeralPub recipientKey.
  rewrite encryptSecret_run, Hd, Hr in Hout. cbv zeta in Hout.
  fold ephemeralPriv ephemeralPub recipientKey in Hout.
  destruct (sealNonce ephemeralPub recipientKey) as [nonce |] eqn:Hn;
    [| discriminate].
  simpl in Hout. injection Hout as <-.
  exists nonce. split; [reflexivity |]. split; [| reflexivity].
  unfold sealNonce in Hn. unfold blake2b_digest.
  destruct (fst (blake2b_New 24 [])) as [h |] eqn:Hh; [| discriminate].
  injection Hn as <-. rewrite Hs. f_equal. symmetry.
  apply copyInto_exact, H24, Hh.
Qed.


(** C6. Empty plaintext: for a key that decodes to the 32 bytes of a
    recipient's public key, [encryptSecret] on the empty string
    returns a string and no error (the entropy being delivered); the
    string decodes to exactly 48 bytes, and unsealing them with the
    matching private key gives the empty string. *)
Theorem seal_empty_plaintext (skR : array 32) (pk : string) (r r' : Reader)
        (seed : list byte) :
  hash_available P -> hash_streams P -> box_overhead P -> box_opens P ->
  base64.DecodeString pk = (elems (ScalarBaseMult skR), None) ->
  ReadFull r 32 [] = (inl seed, r') ->
  exists (out : string) (sealed : list byte),
    encryptSecret pk "" r = (Ok out, r') /\
    base64.DecodeString out = (sealed, None) /\
    length sealed = 48%nat /\
    unseal sealed (ScalarBaseMult skR) skR = Some [].
Proof.
  intros Hh Hs Hov Ho Hd Hr.
  destruct (seal_then_unseal skR pk "" r r' seed Hh Hs Ho Hd Hr)
    as (nonce & Hrun & Hopen).
  do 2 eexists. split; [exact Hrun |].
  split; [apply base64_facts.DecodeString_EncodeToString |].
  split; [| exact Hopen].
  now rewrite sealedWith_length.
Qed.

(** C10. Determinism: two runs with the same key string, the same
    secret and entropy sources whose 32-byte read has the same outcome
    (the same bytes or the same error) give the same result, string
    or error, whatever the sources hold after that read. *)
Theorem encryptSecret_deterministic (pk m : string) (r1 r2 : Reader) :
  fst (ReadFull r1 32 []) = fst (ReadFull r2 32 []) ->
  fst (encryptSecret pk m r1) = fst (encryptSecret pk m r2).
Proof.
  intros H. rewrite !encryptSecret_run.
  destruct (base64.DecodeString pk) as [bs [e |]]; [reflexivity |].
  destruct (ReadFull r1 32 []) as [res1 r1'],
           (ReadFull r2 32 []) as [res2 r2'].
  simpl in H. subst res2.
  destruct res1 as [seed | e]; [| reflexivity].
  cbv zeta. destruct (sealNonce _ _); reflexivity.
Qed.

End SealerClaims.

Section KeyAndErrorHandling.
Context {P : Primitives}.

(** The 32 bytes [copy] leaves in the zeroed key array. *)
Definition fitted (bs : list byte) : list byte :=
  firstn 32 bs ++ repeat zero (32 - length bs).

Lemma fitted_length (bs : list byte) : length (fitted bs) = 32%nat.
Proof.
  unfold fitted. rewrite length_app, length_firstn, repeat_length. lia.
Qed.

Lemma recipientKey_fitted (bs : list byte) :
  copyInto (zeroArray 32) bs = copyInto (zeroArray 32) (fitted bs).
Proof.
  apply array_ext. rewrite (copyInto_exact (fitted bs)) by apply fitted_length.
  exact (copy_zero 32 bs).
Qed.

(** C4, as the code has it. A key string that fails base64 decoding
    makes [encryptSecret] return the error "failed to decode public
    key", with no panic, no entropy drawn and no primitive called. A
    key string that decodes without error is never rejected for its
    length: the call behaves exactly as for the base64 of the decoded
    bytes cut to 32 or filled with zero bytes up to 32. *)
Theorem invalid_key_handling (pk m : string) (r : Reader)
        (bs : list byte) (err : option error) :
  base64.DecodeString pk = (bs, err) ->
  match err with
  | Some e =>
      encryptSecret pk m r
      = (Err (Errorf "failed to decode public key: " e), r)
  | None =>
      encryptSecret pk m r
      = encryptSecret (base64.EncodeToString (fitted bs)) m r
  end.
Proof.
  intros Hd. destruct err as [e |].
  - now rewrite encryptSecret_run, Hd.
  - rewrite !encryptSecret_run, Hd.
    rewrite base64_facts.DecodeString_EncodeToString.
    now rewrite <- recipientKey_fitted.
Qed.


End KeyAndErrorHandling.

(** C4, the claim as stated fails: the key string "AAAA" decodes without
    error to three bytes, not 32, and [encryptSecret] does not return an
    error; it seals under the key filled up with zero bytes and returns
    what it returns for the base64 of 32 zero bytes. *)
Lemma wrong_length_key_accepted :
  base64.DecodeString "AAAA" = ([zero; zero; zero], None)
  /\ length [zero; zero; zero] <> 32%nat
  /\ encryptSecret (P := Toy.primitives) "AAAA" "x" (Toy.supply Toy.seedA)
     = (Ok "QUFBQUFBQUFBQUFBQUFBQUFBQUFBQUFBQUFBQUFBQUFBQUFBQUFBQUFBQUFBQUFBOQ==",
        Dry)
  /\ encryptSecret (P := Toy.primitives)
       "AAAAAAAAAAAAAAAAAAAAAAAAAAAAAAAAAAAAAAAAAAA=" "x"
       (Toy.supply Toy.seedA)
     = encryptSecret (P := Toy.primitives) "AAAA" "x" (Toy.supply Toy.seedA).
Proof.
  split; [reflexivity |]. split; [discriminate |].
  split; vm_compute; reflexivity.
Qed.


(** ** The sealer's properties on a concrete run

    The recipient pair of [Toy], the plaintext "hi", and an entropy
    source that holds 32 bytes 'A' and then 32 bytes 'B'. *)

Section ConcreteRuns.
#[local] Existing Instance Toy.primitives.

Lemma toy_hash_available : hash_available Toy.primitives.
Proof. exists (24, []). reflexivity. Qed.



Lemma seal_round_trip_witness :
exists (out : string) (sealed : list byte),
  encryptSecret (P := Toy.primitives) Toy.recipientPubBase64 "hi"
    (Toy.supply (Toy.seedA ++ Toy.seedB))
  = (Ok out, Toy.supply Toy.seedB) /\
  base64.DecodeString out = (sealed, None) /\
  unseal (P := Toy.primitives) sealed Toy.recipientPub Toy.recipientPriv
  = Some (bytes "hi").
Proof.
exact (seal_round_trip (P := Toy.primitives) Toy.recipientPriv
         Toy.recipientPubBase64 "hi" _ _ Toy.seedA
         toy_hash_available Toy_facts.Write_app Toy_facts.Open_Seal
         Toy_facts.recipientPub_decodes Toy_facts.ReadFull_seedA).
Defined.

Lemma sealed_output_layout_witness :
exists (ephemeralPub ephemeralPriv recipientKey : array 32)
       (nonce : array 24),
  fst (GenerateKey (P := Toy.primitives) (Toy.supply Toy.seedA))
  = inl (ephemeralPub, ephemeralPriv) /\
  elems recipientKey = elems Toy.recipientPub /\
  "QUFBQUFBQUFBQUFBQUFBQUFBQUFBQUFBQUFBQUFBQUEqKioqKioqKioqKioqKioqQkM="%string
  = base64.EncodeToString
      (elems ephemeralPub
       ++ box_Seal (Primitives := Toy.primitives) [] (bytes "hi") nonce
            recipientKey ephemeralPriv) /\
  length (elems ephemeralPub) = 32%nat /\
  base64.DecodeString
    "QUFBQUFBQUFBQUFBQUFBQUFBQUFBQUFBQUFBQUFBQUEqKioqKioqKioqKioqKioqQkM="
  = (elems ephemeralPub
     ++ box_Seal (Primitives := Toy.primitives) [] (bytes "hi") nonce
          recipientKey ephemeralPriv, None) /\
  length (elems ephemeralPub
          ++ box_Seal (Primitives := Toy.primitives) [] (bytes "hi") nonce
               recipientKey ephemeralPriv)
  = (32 + length (bytes "hi") + 16)%nat.
Proof.
refine (proj1 (sealed_output_layout (P := Toy.primitives)
                 Toy.recipientPubBase64 "hi" (Toy.supply Toy.seedA)
                 (elems Toy.recipientPub)
                 Toy_facts.Seal_overhead Toy_facts.recipientPub_decodes _)
              _ _).
- reflexivity.
- vm_compute. reflexivity.
Defined.

Lemma nonce_is_blake2b_digest_witness :
exists nonce : array 24,
  sealNonce (P := Toy.primitives) (ScalarBaseMult (privOf Toy.seedA))
    (copyInto (zeroArray 32) (elems Toy.recipientPub)) = Some nonce /\
  blake2b_digest (P := Toy.primitives) 24
    (elems (ScalarBaseMult (Primitives := Toy.primitives)
              (privOf Toy.seedA))
     ++ elems (copyInto (zeroArray 32) (elems Toy.recipientPub)))
  = Some (elems nonce) /\
  "QUFBQUFBQUFBQUFBQUFBQUFBQUFBQUFBQUFBQUFBQUEqKioqKioqKioqKioqKioqQkM="%string
  = base64.EncodeToString
      (elems (ScalarBaseMult (Primitives := Toy.primitives)
                (privOf Toy.seedA))
       ++ box_Seal (Primitives := Toy.primitives) [] (bytes "hi") nonce
            (copyInto (zeroArray 32) (elems Toy.recipientPub))
            (privOf Toy.seedA)).
Proof.
refine (nonce_is_blake2b_digest (P := Toy.primitives)
          Toy.recipientPubBase64 "hi" (Toy.supply Toy.seedA) Dry
          (elems Toy.recipientPub) Toy.seedA _
          Toy_facts.Write_app Toy_facts.Sum_24
          Toy_facts.recipientPub_decodes _ _).
- reflexivity.
- vm_compute. reflexivity.
Defined.

Lemma invalid_key_handling_witness :
encryptSecret (P := Toy.primitives) "!!" "x" (Toy.supply Toy.seedA)
= (Err (Errorf "failed to decode public key: " (CorruptInputError 0)),
   Toy.supply Toy.seedA)
/\ encryptSecret (P := Toy.primitives) "AAAA" "x" (Toy.supply Toy.seedA)
   = encryptSecret (P := Toy.primitives)
       (base64.EncodeToString (fitted [zero; zero; zero])) "x"
       (Toy.supply Toy.seedA).
Proof.
split.
- exact (invalid_key_handling (P := Toy.primitives) "!!" "x"
           (Toy.supply Toy.seedA) [] (Some (CorruptInputError 0)) eq_refl).
- exact (invalid_key_handling (P := Toy.primitives) "AAAA" "x"
           (Toy.supply Toy.seedA) [zero; zero; zero] None eq_refl).
Defined.



Lemma seal_empty_plaintext_witness :
exists (out : string) (sealed : list byte),
  encryptSecret (P := Toy.primitives) Toy.recipientPubBase64 ""
    (Toy.supply (Toy.seedA ++ Toy.seedB))
  = (Ok out, Toy.supply Toy.seedB) /\
  base64.DecodeString out = (sealed, None) /\
  length sealed = 48%nat /\
  unseal (P := Toy.primitives) sealed Toy.recipientPub Toy.recipientPriv
  = Some [].
Proof.
exact (seal_empty_plaintext (P := Toy.primitives) Toy.recipientPriv
         Toy.recipientPubBase64 _ _ Toy.seedA
         toy_hash_available Toy_facts.Write_app Toy_facts.Seal_overhead
         Toy_facts.Open_Seal
         Toy_facts.recipientPub_decodes Toy_facts.ReadFull_seedA).
Defined.

Lemma encryptSecret_deterministic_witness :
fst (encryptSecret (P := Toy.primitives) Toy.recipientPubBase64 "hi"
       (Toy.supply (Toy.seedA ++ Toy.seedB)))
= fst (encryptSecret (P := Toy.primitives) Toy.recipientPubBase64 "hi"
         (Toy.supply Toy.seedA)).
Proof.
exact (encryptSecret_deterministic (P := Toy.primitives)
         Toy.recipientPubBase64 "hi"
         (Toy.supply (Toy.seedA ++ Toy.seedB)) (Toy.supply Toy.seedA)
         eq_refl).
Defined.

End ConcreteRuns.

(** ** Environment names *)

Module utf8_facts.
Import utf8.

Lemma lor_ge_l (x y : Z) : 0 <= y -> x <= Z.lor x y.
Proof.
  intros Hy. pose proof (Z.sub_lor_l_same_l y x) as H.
  assert (0 <= Z.land y (Z.lnot x)) by (apply Z.land_nonneg; now left).
  lia.
Qed.

Lemma lor_ge_r (x y : Z) : 0 <= x -> y <= Z.lor x y.
Proof. intros Hx. rewrite Z.lor_comm. now apply lor_ge_l. Qed.

Lemma land_maskx_nonneg (b : Z) : 0 <= Z.land b maskx.
Proof. apply Z.land_nonneg. right. unfold maskx. lia. Qed.

Lemma field (b m k : Z) (w : Z) :
  0 <= w -> 0 <= k -> m = Z.ones w ->
  Z.shiftl (Z.land b m) k = (b mod 2 ^ w) * 2 ^ k.
Proof.
  intros Hw Hk ->. now rewrite Z.land_ones, Z.shiftl_mul_pow2 by assumption.
Qed.

Ltac fields :=
  unfold mask2, mask3, mask4, maskx;
  rewrite ?(field _ 0x1F 6 5), ?(field _ 0x0F 12 4), ?(field _ 0x07 18 3),
          ?(field _ 0x3F 6 6), ?(field _ 0x3F 12 6) by (reflexivity || lia);
  change (2 ^ 3) with 8; change (2 ^ 4) with 16; change (2 ^ 5) with 32;
  change (2 ^ 6) with 64; change (2 ^ 12) with 4096;
  change (2 ^ 18) with 262144.

Lemma rune2_ge (b0 b1 : Z) : 0xC2 <= b0 < 0xE0 -> 128 <= rune2 b0 b1.
Proof.
  intros H0. unfold rune2.
  pose proof (lor_ge_l (Z.shiftl (Z.land b0 mask2) 6) (Z.land b1 maskx)
                (land_maskx_nonneg b1)) as H.
  revert H. fields. intros H.
  assert (2 <= b0 mod 32) by (Z.div_mod_to_equations; lia). lia.
Qed.

Lemma rune3_ge (b0 b1 b2 : Z) :
  0xE0 <= b0 < 0xF0 -> (b0 = 0xE0 -> 0xA0 <= b1 <= 0xBF) ->
  128 <= rune3 b0 b1 b2.
Proof.
  intros H0 H1. unfold rune3.
  set (A := Z.shiftl (Z.land b0 mask3) 12).
  set (B := Z.shiftl (Z.land b1 maskx) 6).
  assert (HA : A = (b0 mod 16) * 4096) by (subst A; now fields).
  assert (HB : B = (b1 mod 64) * 64) by (subst B; now fields).
  assert (0 <= A /\ 0 <= B) as [HA0 HB0]
      by (rewrite HA, HB; Z.div_mod_to_equations; lia).
  pose proof (lor_ge_l (Z.lor A B) (Z.land b2 maskx)
                (land_maskx_nonneg b2)).
  pose proof (lor_ge_l A B HB0). pose proof (lor_ge_r A B HA0).
  destruct (Z.eq_dec b0 0xE0) as [-> | Hne].
  - specialize (H1 eq_refl).
    assert (32 <= b1 mod 64) by (Z.div_mod_to_equations; lia). lia.
  - assert (1 <= b0 mod 16) by (Z.div_mod_to_equations; lia). lia.
Qed.

Lemma rune4_ge (b0 b1 b2 b3 : Z) :
  0xF0 <= b0 <= 0xF4 -> (b0 = 0xF0 -> 0x90 <= b1 <= 0xBF) ->
  128 <= rune4 b0 b1 b2 b3.
Proof.
  intros H0 H1. unfold rune4.
  set (A := Z.shiftl (Z.land b0 mask4) 18).
  set (B := Z.shiftl (Z.land b1 maskx) 12).
  set (C := Z.shiftl (Z.land b2 maskx) 6).
  assert (HA : A = (b0 mod 8) * 262144) by (subst A; now fields).
  assert (HB : B = (b1 mod 64) * 4096) by (subst B; now fields).
  assert (HC : C = (b2 mod 64) * 64) by (subst C; now fields).
  assert (0 <= A /\ 0 <= B /\ 0 <= C) as (HA0 & HB0 & HC0)
      by (rewrite HA, HB, HC; Z.div_mod_to_equations; lia).
  pose proof (lor_ge_l (Z.lor (Z.lor A B) C) (Z.land b3 maskx)
                (land_maskx_nonneg b3)).
  pose proof (lor_ge_l (Z.lor A B) C HC0).
  pose proof (lor_ge_l A B HB0). pose proof (lor_ge_r A B HA0).
  destruct (Z.eq_dec b0 0xF0) as [-> | Hne].
  - specialize (H1 eq_refl).
    assert (16 <= b1 mod 64) by (Z.div_mod_to_equations; lia). lia.
  - assert (1 <= b0 mod 8) by (Z.div_mod_to_equations; lia). lia.
Qed.

Lemma first_cases (b : Z) :
  0x80 <= b < 256 ->
  (b < 0xC2 /\ first b = xx)
  \/ (0xC2 <= b < 0xE0 /\ first b = s1)
  \/ (b = 0xE0 /\ first b = s2)
  \/ (0xE0 < b < 0xF0 /\ (first b = s3 \/ first b = s4))
  \/ (b = 0xF0 /\ first b = s5)
  \/ (0xF0 < b <= 0xF4 /\ (first b = s6 \/ first b = s7))
  \/ (0xF5 <= b /\ first b = xx).
Proof.
  intros Hb. unfold first.
  repeat match goal with
         | |- context [?a <? ?c] => destruct (Z.ltb_spec a c)
         | |- context [?a =? ?c] => destruct (Z.eqb_spec a c)
         end; try lia; intuition (auto; lia).
Qed.

Ltac bool_hyps :=
  repeat match goal with
         | H : (_ || _) = false |- _ =>
             apply orb_false_elim in H; destruct H
         | H : (_ <? _) = false |- _ => apply Z.ltb_ge in H
         | H : (_ <? _) = true |- _ => apply Z.ltb_lt in H
         end.

Ltac split_ifs :=
  repeat match goal with
         | |- context [if ?c then _ else _] => destruct c eqn:?
         end;
  cbn [fst].

(** A sequence that starts with a byte outside ASCII never decodes to
    an ASCII rune: it is [RuneError] or a rune of two or more bytes. *)
Lemma decodeFirst_high (b0 n b1 b2 b3 : Z) :
  0x80 <= b0 < 256 ->
  128 <= fst (decodeFirst (first b0) n b0 b1 b2 b3).
Proof.
  intros Hb.
  destruct (first_cases b0 Hb)
    as [[H ->] | [[H ->] | [[H ->] | [[H [-> | ->]]
                           | [[H ->] | [[H [-> | ->]] | [H ->]]]]]]];
    unfold decodeFirst; cbn -[rune2 rune3 rune4 Z.ltb];
    split_ifs; bool_hyps; unfold RuneError, hicb, locb in *;
    first [ lia
          | apply rune2_ge; lia
          | apply rune3_ge; lia
          | apply rune4_ge; lia ].
Qed.

Lemma validChar_high (r : Z) : 128 <= r -> validChar r = false.
Proof.
  intros Hr. unfold validChar.
  replace (r <=? 122) with false by (symmetry; apply Z.leb_gt; lia).
  replace (r <=? 57) with false by (symmetry; apply Z.leb_gt; lia).
  replace (r =? 45) with false by (symmetry; apply Z.eqb_neq; lia).
  now rewrite !andb_false_r.
Qed.

(** Checking the runes of a string is checking its bytes: the accepted
    characters are all ASCII, and a byte outside ASCII never yields one. *)
Lemma range_valid (bs : list byte) :
  forallb validChar (rangeFrom 0 bs)
  = forallb (fun c => validChar (Z_of_byte c)) bs.
Proof.
  induction bs as [| c rest IH]; [reflexivity |].
  pose proof (Z_of_byte_range c) as Hc.
  cbn [rangeFrom forallb].
  destruct (Z.ltb_spec (Z_of_byte c) RuneSelf) as [Hlt | Hge].
  - cbn [forallb]. change (Z.to_nat (1 - 1)) with 0%nat. now rewrite IH.
  - unfold RuneSelf in Hge.
    pose proof (decodeFirst_high (Z_of_byte c)
                  (Z.of_nat (length (c :: rest)))
                  (Z_of_byte (nth 0 rest zero))
                  (Z_of_byte (nth 1 rest zero))
                  (Z_of_byte (nth 2 rest zero)) ltac:(lia)) as Hhigh.
    unfold DecodeRuneInString.
    destruct (decodeFirst _ _ _ _ _ _) as [r width]. cbn [fst] in Hhigh.
    cbn [forallb].
    now rewrite (validChar_high r Hhigh), (validChar_high _ Hge).
Qed.

End utf8_facts.

(** A lowercase ASCII letter, an ASCII digit or a hyphen. *)
Definition allowedChar (c : byte) : Prop :=
  97 <= Z_of_byte c <= 122 \/ 48 <= Z_of_byte c <= 57 \/ c = hyphen.

Definition startsWith (name : string) (c : byte) : Prop :=
  exists rest, bytes name = c :: rest.

Definition endsWith (name : string) (c : byte) : Prop :=
  exists front, bytes name = front ++ [c].

(** What makes an environment name valid. *)
Definition validName (name : string) : Prop :=
  (1 <= String.length name <= 255)%nat
  /\ Forall allowedChar (bytes name)
  /\ ~ startsWith name hyphen
  /\ ~ endsWith name hyphen.

Lemma validChar_allowed (c : byte) :
  validChar (Z_of_byte c) = true <-> allowedChar c.
Proof.
  unfold validChar, allowedChar.
  rewrite !orb_true_iff, !andb_true_iff, !Z.geb_le, !Z.leb_le, Z.eqb_eq.
  assert (Z_of_byte c = 45 <-> c = hyphen) as ->; [| tauto].
  split; [intros H; now apply Z_of_byte_inj | now intros ->].
Qed.

Lemma forallb_allowed (bs : list byte) :
  forallb (fun c => validChar (Z_of_byte c)) bs = true
  <-> Forall allowedChar bs.
Proof.
  rewrite forallb_forall, Forall_forall.
  split; intros H c Hin; apply validChar_allowed, H, Hin.
Qed.

Lemma strIndex_first (name : string) (c : byte) (rest : list byte) :
  bytes name = c :: rest -> strIndex name 0 = Some c.
Proof. intros H. unfold strIndex. now rewrite H. Qed.

Lemma strIndex_last (name : string) (front : list byte) (c : byte) :
  bytes name = front ++ [c] ->
  strIndex name (Z.of_nat (String.length name) - 1) = Some c.
Proof.
  intros H. unfold strIndex. rewrite <- bytes_length, H, length_app.
  cbn [length].
  replace (Z.of_nat (length front + 1) - 1 <? 0) with false
    by (symmetry; apply Z.ltb_ge; lia).
  replace (Z.to_nat (Z.of_nat (length front + 1) - 1)) with (length front)
    by lia.
  now rewrite nth_error_app2, Nat.sub_diag by lia.
Qed.

(** C8. [isValidEnvironmentName] returns (it never panics), and it
    returns true exactly when the name has between 1 and 255 bytes,
    each of them a lowercase ASCII letter, an ASCII digit or a hyphen,
    and the name neither starts nor ends with a hyphen. *)
Theorem isValidEnvironmentName_spec (name : string) :
  exists b : bool,
    isValidEnvironmentName name = Some b /\ (b = true <-> validName name).
Proof.
  unfold isValidEnvironmentName, validName, utf8.range.
  rewrite utf8_facts.range_valid.
  destruct ((Z.of_nat (String.length name) <? 1)
            || (Z.of_nat (String.length name) >? 255)) eqn:Hlen.
  - exists false. split; [reflexivity |].
    split; [discriminate |]. intros [Hl _].
    apply orb_true_iff in Hlen. rewrite Z.ltb_lt, Z.gtb_lt in Hlen. lia.
  - apply orb_false_iff in Hlen. rewrite Z.ltb_ge, Z.gtb_ltb, Z.ltb_ge in Hlen.
    destruct (forallb (fun c => validChar (Z_of_byte c)) (bytes name))
      eqn:Hall; cbn [negb].
    + apply forallb_allowed in Hall.
      destruct (bytes name) as [| c rest] eqn:Hbs.
      { pose proof (bytes_length name) as Hl. rewrite Hbs in Hl.
        simpl in Hl. lia. }
      rewrite (strIndex_first name c rest Hbs).
      destruct (exists_last (l := c :: rest) ltac:(discriminate))
        as (front & l & Hfl).
      rewrite (strIndex_last name front l) by (now rewrite Hbs).
      destruct (Ascii.eqb_spec c hyphen) as [-> | Hc].
      * exists false. split; [reflexivity |]. split; [discriminate |].
        intros (_ & _ & Hs & _). exfalso. apply Hs. now exists rest.
      * destruct (Ascii.eqb_spec l hyphen) as [-> | Hl].
        -- exists false. split; [reflexivity |]. split; [discriminate |].
           intros (_ & _ & _ & He). exfalso. apply He.
           exists front. congruence.
        -- exists true. split; [reflexivity |]. split; [| reflexivity].
           intros _. split; [lia |]. split; [exact Hall |].
           split.
           ++ intros [rest' Hr]. congruence.
           ++ intros [front' Hf]. rewrite Hbs, Hfl in Hf.
              apply app_inj_tail in Hf. now destruct Hf.
    + exists false. split; [reflexivity |]. split; [discriminate |].
      intros (_ & HF & _). apply forallb_allowed in HF. congruence.
Qed.

(** ** Paging *)

Lemma wrap_in_range (z : Z) : GoInt.in_range z -> GoInt.wrap z = z.
Proof.
  unfold GoInt.in_range, GoInt.min_int, GoInt.max_int, GoInt.wrap.
  intros H. rewrite Z.mod_small; lia.
Qed.

Section PagingFacts.
Context {A : Type}.

Lemma skipn_nth_error (l : list A) :
  forall (k : nat) (x : A),
    nth_error l k = Some x -> skipn k l = x :: skipn (S k) l.
Proof.
  induction l as [| y l IH]; intros [| k] x H; try discriminate.
  - now injection H as ->.
  - simpl in H. cbn [skipn]. now apply IH.
Qed.

Lemma sliceIndex_in_range (all : list A) (i : Z) :
  0 <= i < Z.of_nat (length all) ->
  exists x, sliceIndex all i = Some x
            /\ skipn (Z.to_nat i) all = x :: skipn (S (Z.to_nat i)) all.
Proof.
  intros Hi. unfold sliceIndex.
  replace (i <? 0) with false by (symmetry; apply Z.ltb_ge; lia).
  destruct (nth_error all (Z.to_nat i)) as [x |] eqn:Hx.
  - exists x. split; [reflexivity | now apply skipn_nth_error].
  - apply nth_error_None in Hx. lia.
Qed.

(** The loop over in-bounds indices appends the slice [all[i : i+n]]. *)
Lemma appendRange_in_range (n : nat) :
  forall (i : Z) (all repos : list A),
    0 <= i -> i + Z.of_nat n <= Z.of_nat (length all) ->
    appendRange n i all repos
    = Returns (repos ++ firstn n (skipn (Z.to_nat i) all)).
Proof.
  induction n as [| n IH]; intros i all repos Hi Hn.
  - simpl. now rewrite app_nil_r.
  - cbn [appendRange].
    destruct (sliceIndex_in_range all i ltac:(lia)) as (x & -> & Hskip).
    rewrite IH by lia. rewrite Hskip. cbn [firstn].
    rewrite <- app_assoc. cbn [app].
    now replace (Z.to_nat (i + 1)) with (S (Z.to_nat i)) by lia.
Qed.

(** While [page * perPage] fits a Go [int], the page is the slice of at
    most [perPage] elements that starts at [(page-1) * perPage], and no
    index expression is out of range. *)
Lemma paginate_in_range (all : list A) (page perPage : Z) :
  1 <= page -> 1 <= perPage -> page * perPage <= GoInt.max_int ->
  paginate all page perPage
  = Returns (firstn (Z.to_nat perPage)
               (skipn (Z.to_nat ((page - 1) * perPage)) all)).
Proof.
  intros Hp Hpp Hmax. unfold paginate, GoInt.mul, GoInt.sub, GoInt.add.
  unfold GoInt.max_int in Hmax.
  assert (Hs : 0 <= (page - 1) * perPage) by nia.
  assert (He : (page - 1) * perPage + perPage = page * perPage) by ring.
  rewrite (wrap_in_range (page - 1))
    by (unfold GoInt.in_range, GoInt.min_int, GoInt.max_int; nia).
  rewrite (wrap_in_range ((page - 1) * perPage))
    by (unfold GoInt.in_range, GoInt.min_int, GoInt.max_int; nia).
  rewrite (wrap_in_range ((page - 1) * perPage + perPage))
    by (unfold GoInt.in_range, GoInt.min_int, GoInt.max_int; nia).
  set (start := (page - 1) * perPage) in *.
  set (len := Z.of_nat (length all)).
  destruct (Z.geb_spec start len) as [Hge | Hlt].
  - replace (start + perPage >? len) with true
      by (symmetry; apply Z.gtb_lt; lia).
    rewrite Z.sub_diag. cbn [Z.to_nat appendRange].
    rewrite skipn_all2 by (subst len; lia). now rewrite firstn_nil.
  - destruct (Z.gtb_spec (start + perPage) len) as [Hgt | Hle].
    + rewrite appendRange_in_range by (subst len; lia). cbn [app].
      assert (Hl : length (skipn (Z.to_nat start) all)
                   = Z.to_nat (len - start))
        by (rewrite length_skipn; subst len; lia).
      rewrite <- Hl, firstn_all.
      now rewrite firstn_all2 by lia.
    + rewrite appendRange_in_range by (subst len; lia). cbn [app].
      now replace (start + perPage - start) with perPage by ring.
Qed.

End PagingFacts.

(** C9, where the code breaks it. The page number 4611686018427387905
    and two entries per page pass the handler's checks ([page > 0],
    [0 < per_page <= 100]), but [(page - 1) * perPage] overflows to the
    most negative [int]: neither clamp applies, the loop starts at that
    index and the first [allRepos[i]] is out of range, on any list. The
    same happens in [fallbackRepositorySearch]. *)
Theorem paginate_overflow_panics (allRepos : list Repository)
        (matches : Repository -> bool) :
  getRepositories_page allRepos (Some 4611686018427387905) (Some 2)
  = IndexOutOfRange (-9223372036854775808) (Z.of_nat (length allRepos))
  /\ fallbackRepositorySearch allRepos matches 4611686018427387905 2
     = IndexOutOfRange (-9223372036854775808)
         (Z.of_nat (length (filter matches allRepos))).
Proof.
  assert (H : forall l : list Repository,
             paginate l 4611686018427387905 2
             = IndexOutOfRange (-9223372036854775808) (Z.of_nat (length l))).
  { intros l. unfold paginate.
    change (GoInt.mul (GoInt.sub 4611686018427387905 1) 2)
      with (-9223372036854775808).
    change (GoInt.add (-9223372036854775808) 2) with (-9223372036854775806).
    replace (-9223372036854775808 >=? Z.of_nat (length l)) with false
      by (symmetry; rewrite Z.geb_leb; apply Z.leb_gt; lia).
    replace (-9223372036854775806 >? Z.of_nat (length l)) with false
      by (symmetry; rewrite Z.gtb_ltb; apply Z.ltb_ge; lia).
    reflexivity. }
  split.
  - unfold getRepositories_page. cbn [pageParam perPageParam].
    change (4611686018427387905 >? 0) with true.
    change ((2 >? 0) && (2 <=? 100)) with true. cbv iota. apply H.
  - unfold fallbackRepositorySearch. now rewrite H.
Qed.

(** The third page of five entries, two per page. *)
Lemma paginate_in_range_witness :
  paginate [1; 2; 3; 4; 5] 3 2
  = Returns (firstn (Z.to_nat 2) (skipn (Z.to_nat ((3 - 1) * 2)) [1; 2; 3; 4; 5])).
Proof.
  apply (paginate_in_range [1; 2; 3; 4; 5] 3 2); unfold GoInt.max_int; lia.
Defined.

(** * Further properties of the handlers' helpers *)

(** ** Repository strings *)

Lemma bytes_app (a b : string) : bytes (a ++ b) = bytes a ++ bytes b.
Proof. induction a as [| c a IH]; simpl; [reflexivity | now rewrite IH]. Qed.

Lemma str_app (a b : list byte) : str (a ++ b) = (str a ++ str b)%string.
Proof. induction a as [| c a IH]; simpl; [reflexivity | now rewrite IH]. Qed.

Lemma str_inj (a b : list byte) : str a = str b -> a = b.
Proof. intros H. now rewrite <- (bytes_str a), <- (bytes_str b), H. Qed.

(** The pieces put together again with the separator between them. *)
Fixpoint joinBytes (sep : byte) (parts : list (list byte)) : list byte :=
  match parts with
  | [] => []
  | [p] => p
  | p :: rest => p ++ sep :: joinBytes sep rest
  end.

Lemma splitBytes_nonempty (sep : byte) (s : list byte) :
  splitBytes sep s <> [].
Proof.
  destruct s as [| c rest]; simpl; [discriminate |].
  destruct (Ascii.eqb c sep); [discriminate |].
  destruct (splitBytes sep rest); discriminate.
Qed.

Lemma joinBytes_cons (sep : byte) (p : list byte) (rest : list (list byte)) :
  rest <> [] -> joinBytes sep (p :: rest) = p ++ sep :: joinBytes sep rest.
Proof. destruct rest; [congruence | reflexivity]. Qed.

Lemma splitBytes_join (sep : byte) (s : list byte) :
  joinBytes sep (splitBytes sep s) = s.
Proof.
  induction s as [| c rest IH]; [reflexivity |]. simpl.
  destruct (Ascii.eqb_spec c sep) as [-> | Hne].
  - rewrite joinBytes_cons by apply splitBytes_nonempty. simpl. now rewrite IH.
  - pose proof (splitBytes_nonempty sep rest) as Hn.
    destruct (splitBytes sep rest) as [| p [| q parts]]; [congruence | |].
    + simpl in *. now rewrite IH.
    + change (joinBytes sep ((c :: p) :: q :: parts))
        with (c :: joinBytes sep (p :: q :: parts)).
      now rewrite IH.
Qed.

Lemma splitBytes_parts (sep : byte) (s : list byte) :
  Forall (fun p => ~ In sep p) (splitBytes sep s).
Proof.
  induction s as [| c rest IH]; simpl.
  - constructor; [intros [] | constructor].
  - destruct (Ascii.eqb_spec c sep) as [-> | Hne].
    + constructor; [intros [] | exact IH].
    + destruct (splitBytes sep rest) as [| p parts].
      * constructor; [| constructor]. intros [H | []]. congruence.
      * inversion IH as [| ? ? Hp Hparts]; subst.
        constructor; [| exact Hparts]. intros [H | H]; [congruence | tauto].
Qed.

Lemma splitBytes_app_sep (sep : byte) (a b : list byte) :
  ~ In sep a -> splitBytes sep (a ++ sep :: b) = a :: splitBytes sep b.
Proof.
  induction a as [| c a IH]; intros Ha; simpl.
  - now rewrite Ascii.eqb_refl.
  - destruct (Ascii.eqb_spec c sep) as [-> | Hne]; [exfalso; apply Ha; now left |].
    rewrite IH by (intros H; apply Ha; now right). reflexivity.
Qed.

Lemma splitBytes_no_sep (sep : byte) (a : list byte) :
  ~ In sep a -> splitBytes sep a = [a].
Proof.
  induction a as [| c a IH]; intros Ha; simpl; [reflexivity |].
  destruct (Ascii.eqb_spec c sep) as [-> | Hne]; [exfalso; apply Ha; now left |].
  rewrite IH by (intros H; apply Ha; now right). reflexivity.
Qed.

(** A repository string passes the handlers' format test exactly when it
    has one slash; the owner is what stands before it and the repository
    name what stands after it, either of which may be empty. *)
Theorem ownerAndRepo_spec (s owner repoName : string) :
  ownerAndRepo s = Some (owner, repoName)
  <-> s = (owner ++ "/" ++ repoName)%string
      /\ ~ In slash (bytes owner) /\ ~ In slash (bytes repoName).
Proof.
  unfold ownerAndRepo, Split. split.
  - intros H.
    pose proof (splitBytes_join slash (bytes s)) as Hj.
    pose proof (splitBytes_parts slash (bytes s)) as Hp.
    destruct (splitBytes slash (bytes s)) as [| a [| b [| c rest]]];
      simpl in H; try discriminate.
    injection H as <- <-. rewrite !bytes_str.
    inversion Hp as [| ? ? Ha Hp']; subst.
    inversion Hp' as [| ? ? Hb _]; subst.
    split; [| now split].
    rewrite <- (str_bytes s), <- Hj. simpl. now rewrite str_app.
  - intros (-> & Ho & Hr).
    rewrite bytes_app. change (bytes ("/" ++ repoName)) with (slash :: bytes repoName).
    rewrite splitBytes_app_sep, splitBytes_no_sep by assumption.
    simpl. now rewrite !str_bytes.
Qed.

(** ** [contains] *)

(** [contains] is membership. *)
Theorem contains_In (slice : list string) (item : string) :
  contains slice item = true <-> In item slice.
Proof.
  induction slice as [| s rest IH]; simpl.
  - split; [discriminate | contradiction].
  - destruct (String.eqb_spec s item) as [-> | Hne].
    + split; [now left | reflexivity].
    + rewrite IH. split; [now right | intros [H | H]; [congruence | exact H]].
Qed.

(** ** Removing duplicate repositories *)

Lemma uniqueLoop_ext (l : list Repository) :
  forall (seen1 seen2 : boolMap) (u : list Repository),
    (forall k, seen1 k = seen2 k) ->
    uniqueLoop l seen1 u = uniqueLoop l seen2 u.
Proof.
  induction l as [| r l IH]; intros seen1 seen2 u H; simpl; [reflexivity |].
  rewrite (H (ID r)). destruct (seen2 (ID r)); simpl.
  - now apply IH.
  - apply IH. intros k. unfold setTrue. now rewrite H.
Qed.

Lemma uniqueLoop_acc (l : list Repository) :
  forall (seen : boolMap) (u : list Repository),
    uniqueLoop l seen u = u ++ uniqueLoop l seen [].
Proof.
  induction l as [| r l IH]; intros seen u; simpl.
  - now rewrite app_nil_r.
  - destruct (seen (ID r)); simpl; [apply IH |].
    rewrite (IH _ (u ++ [r])), (IH _ [r]). now rewrite <- app_assoc.
Qed.

Definition otherID (k : Z) (x : Repository) : bool := negb (ID x =? k).

(** Marking an ID as seen is dropping the repositories that carry it. *)
Lemma uniqueLoop_seen (l : list Repository) :
  forall (seen : boolMap) (k : Z),
    uniqueLoop l (setTrue seen k) []
    = uniqueLoop (filter (otherID k) l) seen [].
Proof.
  induction l as [| x l IH]; intros seen k; [reflexivity |].
  cbn [uniqueLoop filter]. unfold otherID at 1, setTrue at 1.
  destruct (Z.eqb_spec (ID x) k) as [-> | Hne]; cbn [negb].
  - apply IH.
  - cbn [uniqueLoop]. destruct (seen (ID x)); cbn [negb].
    + apply IH.
    + rewrite (uniqueLoop_acc l), (uniqueLoop_acc (filter _ l)). f_equal.
      rewrite <- IH. apply uniqueLoop_ext. intros j. unfold setTrue.
      destruct (Z.eqb_spec j (ID x)), (Z.eqb_spec j k); reflexivity.
Qed.

Lemma removeDuplicates_step (r : Repository) (l : list Repository) :
  removeDuplicates (r :: l)
  = r :: removeDuplicates (filter (otherID (ID r)) l).
Proof.
  unfold removeDuplicates. cbn [uniqueLoop]. unfold emptyBoolMap at 1.
  cbn [negb app]. rewrite uniqueLoop_acc. cbn [app]. f_equal.
  apply uniqueLoop_seen.
Qed.

Lemma removeDuplicates_length_le (n : nat) :
  forall l : list Repository,
    (length l <= n)%nat ->
    NoDup (map ID (removeDuplicates l))
    /\ (forall r, In r (removeDuplicates l) -> In r l)
    /\ (forall k, In k (map ID l) -> In k (map ID (removeDuplicates l))).
Proof.
  induction n as [| n IH]; intros l Hlen.
  - destruct l; [| simpl in Hlen; lia].
    repeat split; [constructor | contradiction | contradiction].
  - destruct l as [| r l].
    { repeat split; [constructor | contradiction | contradiction]. }
    rewrite removeDuplicates_step.
    assert (Hf : (length (filter (otherID (ID r)) l) <= n)%nat).
    { pose proof (filter_length_le (otherID (ID r)) l). simpl in Hlen. lia. }
    destruct (IH _ Hf) as (Hnd & Hin & Hids).
    split; [| split].
    + cbn [map]. constructor; [| exact Hnd].
      intros Hk. apply in_map_iff in Hk. destruct Hk as (x & Hx & Hxin).
      apply Hin, filter_In in Hxin. destruct Hxin as [_ Hne].
      unfold otherID in Hne. rewrite Hx, Z.eqb_refl in Hne. discriminate.
    + intros x [-> | Hx]; [now left |].
      right. apply Hin, filter_In in Hx. tauto.
    + intros k [Hk | Hk]; [now left |]. cbn [map].
      destruct (Z.eq_dec k (ID r)) as [-> | Hne]; [now left |].
      right. apply Hids. apply in_map_iff in Hk.
      destruct Hk as (x & Hx & Hxin). apply in_map_iff. exists x.
      split; [exact Hx |]. apply filter_In. split; [exact Hxin |].
      unfold otherID. rewrite Hx. now apply negb_true_iff, Z.eqb_neq.
Qed.

(** The first repository is kept, and of the rest the ones with another
    ID go through the same treatment: for every ID the first occurrence
    survives, in the order of the input. *)
Theorem removeDuplicates_cons (r : Repository) (l : list Repository) :
  removeDuplicates (r :: l)
  = r :: removeDuplicates (filter (otherID (ID r)) l).
Proof. apply removeDuplicates_step. Qed.

(** No two repositories of the result share an ID, every repository of
    the result is one of the input, and every ID of the input is still
    there. *)
Theorem removeDuplicates_unique (l : list Repository) :
  NoDup (map ID (removeDuplicates l))
  /\ (forall r, In r (removeDuplicates l) -> In r l)
  /\ (forall k, In k (map ID l) -> In k (map ID (removeDuplicates l))).
Proof. now apply (removeDuplicates_length_le (length l)). Qed.

(** A listing that has no ID twice is handed back as it is. *)
Theorem removeDuplicates_fixed (l : list Repository) :
  NoDup (map ID l) -> removeDuplicates l = l.
Proof.
  induction l as [| r l IH]; intros Hnd; [reflexivity |].
  rewrite removeDuplicates_step. inversion Hnd as [| ? ? Hr Hl]; subst.
  f_equal. rewrite <- (IH Hl) at 2. f_equal.
  apply forallb_filter_id. apply forallb_forall. intros x Hx.
  unfold otherID. apply negb_true_iff, Z.eqb_neq. intros Heq.
  apply Hr. rewrite <- Heq. now apply in_map.
Qed.

(** ** Page information *)

Section PageInfo.
Context {A : Type}.

(** The page of a request whose indices do not overflow. *)
Lemma paginate_slice (all : list A) (page perPage : Z) :
  1 <= page -> 1 <= perPage -> page * perPage <= GoInt.max_int ->
  paginate all page perPage
  = Returns (firstn (Z.to_nat perPage)
               (skipn (Z.to_nat ((page - 1) * perPage)) all)).
Proof.
  intros Hp Hpp Hmax. unfold paginate, GoInt.mul, GoInt.sub, GoInt.add.
  unfold GoInt.max_int in Hmax.
  assert (Hs : 0 <= (page - 1) * perPage) by nia.
  assert (He : (page - 1) * perPage + perPage = page * perPage) by ring.
  rewrite (wrap_in_range (page - 1))
    by (unfold GoInt.in_range, GoInt.min_int, GoInt.max_int; nia).
  rewrite (wrap_in_range ((page - 1) * perPage))
    by (unfold GoInt.in_range, GoInt.min_int, GoInt.max_int; nia).
  rewrite (wrap_in_range ((page - 1) * perPage + perPage))
    by (unfold GoInt.in_range, GoInt.min_int, GoInt.max_int; nia).
  set (start := (page - 1) * perPage) in *.
  set (len := Z.of_nat (length all)).
  destruct (Z.geb_spec start len) as [Hge | Hlt].
  - replace (start + perPage >? len) with true
      by (symmetry; apply Z.gtb_lt; lia).
    rewrite Z.sub_diag. cbn [Z.to_nat appendRange].
    rewrite skipn_all2 by (subst len; lia). now rewrite firstn_nil.
  - destruct (Z.gtb_spec (start + perPage) len) as [Hgt | Hle].
    + rewrite appendRange_in_range by (subst len; lia). cbn [app].
      assert (Hl : length (skipn (Z.to_nat start) all)
                   = Z.to_nat (len - start))
        by (rewrite length_skipn; subst len; lia).
      rewrite <- Hl, firstn_all.
      now rewrite firstn_all2 by lia.
    + rewrite appendRange_in_range by (subst len; lia). cbn [app].
      now replace (start + perPage - start) with perPage by ring.
Qed.

Lemma totalPages_value (total page perPage : Z) :
  0 <= total -> 1 <= perPage -> total + perPage <= GoInt.max_int ->
  pg_total_pages (paginationInfo total page perPage)
  = (total + perPage - 1) / perPage.
Proof.
  intros Ht Hp Hmax. unfold GoInt.max_int in Hmax.
  unfold paginationInfo, GoInt_div, GoInt.add, GoInt.sub. cbn [pg_total_pages].
  rewrite (wrap_in_range (total + perPage))
    by (unfold GoInt.in_range, GoInt.min_int, GoInt.max_int; lia).
  rewrite (wrap_in_range (total + perPage - 1))
    by (unfold GoInt.in_range, GoInt.min_int, GoInt.max_int; lia).
  rewrite Z.quot_div_nonneg by lia.
  apply wrap_in_range.
  unfold GoInt.in_range, GoInt.min_int, GoInt.max_int.
  assert (0 <= (total + perPage - 1) / perPage <= total + perPage - 1).
  { split; [apply Z.div_pos; lia |].
    apply Z.div_le_upper_bound; [lia |]. nia. }
  lia.
Qed.

(** [total_pages] is the number of pages it takes to hold [total]
    entries: the least [n] with [n * perPage >= total]. *)
Lemma totalPages_ceiling (total page perPage : Z) :
  0 <= total -> 1 <= perPage -> total + perPage <= GoInt.max_int ->
  let n := pg_total_pages (paginationInfo total page perPage) in
  (n - 1) * perPage < total <= n * perPage.
Proof.
  intros Ht Hp Hmax n. subst n. rewrite totalPages_value by assumption.
  pose proof (Z.div_mod (total + perPage - 1) perPage ltac:(lia)) as Hdm.
  pose proof (Z.mod_pos_bound (total + perPage - 1) perPage ltac:(lia)) as Hm.
  nia.
Qed.

(** [has_next] announces a next page exactly when there is one: the
    page after the current one holds at least one entry. *)
Theorem has_next_iff_next_page (all : list A) (page perPage : Z) :
  1 <= page -> 1 <= perPage ->
  (page + 1) * perPage <= GoInt.max_int ->
  Z.of_nat (length all) + perPage <= GoInt.max_int ->
  pg_has_next (paginationInfo (Z.of_nat (length all)) page perPage) = true
  <-> exists (first : A) (rest : list A),
        paginate all (page + 1) perPage = Returns (first :: rest).
Proof.
  intros Hpage Hpp Hmax Hlen.
  pose proof (totalPages_ceiling (Z.of_nat (length all)) page perPage
                ltac:(lia) Hpp Hlen) as Hceil.
  cbv zeta in Hceil.
  change (pg_has_next (paginationInfo (Z.of_nat (length all)) page perPage))
    with (page <? pg_total_pages
                    (paginationInfo (Z.of_nat (length all)) page perPage)).
  set (n := pg_total_pages _) in *.
  rewrite paginate_slice by lia.
  replace ((page + 1 - 1) * perPage) with (page * perPage) by ring.
  rewrite Z.ltb_lt. split.
  - intros Hlt.
    assert (Hstart : (Z.to_nat (page * perPage) < length all)%nat) by nia.
    destruct (skipn (Z.to_nat (page * perPage)) all) as [| x xs] eqn:Hs.
    + apply (f_equal (@length A)) in Hs. rewrite length_skipn in Hs.
      simpl in Hs. lia.
    + exists x. destruct (Z.to_nat perPage) as [| k] eqn:Hk; [lia |].
      simpl. eexists. reflexivity.
  - intros (x & xs & Heq). injection Heq as Heq.
    destruct (Z.lt_ge_cases page n) as [Hlt | Hge]; [exact Hlt | exfalso].
    rewrite skipn_all2 in Heq by nia.
    rewrite firstn_nil in Heq. discriminate.
Qed.

(** The chunks of [perPage] entries a list falls into. *)
Definition chunk (all : list A) (perPage : nat) (i : nat) : list A :=
  firstn perPage (skipn (i * perPage) all).

Lemma concat_chunks (perPage : nat) (n : nat) :
  forall all : list A,
    (length all <= n * perPage)%nat ->
    concat (map (chunk all perPage) (seq 0 n)) = all.
Proof.
  induction n as [| n IH]; intros all Hlen.
  - destruct all; [reflexivity | simpl in Hlen; lia].
  - cbn [seq map concat]. rewrite <- seq_shift, map_map.
    rewrite (map_ext _ (chunk (skipn perPage all) perPage)).
    + rewrite IH by (rewrite length_skipn; lia).
      unfold chunk. cbn [Nat.mul skipn]. apply firstn_skipn.
    + intros i. unfold chunk. rewrite skipn_skipn. do 2 f_equal. lia.
Qed.

(** Walking the pages from 1 to [total_pages] gives every entry exactly
    once and in order: each of these pages is returned without a panic
    and is not empty, and put one after the other they are the list. *)
Theorem pages_cover (all : list A) (perPage : Z) :
  1 <= perPage ->
  Z.of_nat (length all) + perPage <= GoInt.max_int ->
  let n := pg_total_pages (paginationInfo (Z.of_nat (length all)) 1 perPage) in
  exists pages : list (list A),
    Z.of_nat (length pages) = n
    /\ (forall i : nat,
           (i < length pages)%nat ->
           paginate all (Z.of_nat i + 1) perPage = Returns (nth i pages [])
           /\ nth i pages [] <> [])
    /\ concat pages = all.
Proof.
  intros Hpp Hlen n.
  pose proof (totalPages_ceiling (Z.of_nat (length all)) 1 perPage
                ltac:(lia) Hpp Hlen) as Hceil.
  cbv zeta in Hceil. fold n in Hceil.
  assert (Hn : 0 <= n) by nia.
  exists (map (chunk all (Z.to_nat perPage)) (seq 0 (Z.to_nat n))).
  rewrite length_map, length_seq.
  split; [lia |]. split.
  - intros i Hi.
    rewrite (nth_indep _ [] (chunk all (Z.to_nat perPage) 0))
      by (rewrite length_map, length_seq; lia).
    rewrite map_nth, seq_nth by lia. cbn [Nat.add].
    rewrite paginate_slice by (unfold GoInt.max_int in *; nia).
    unfold chunk.
    replace (Z.to_nat ((Z.of_nat i + 1 - 1) * perPage))
      with (i * Z.to_nat perPage)%nat by nia.
    split; [reflexivity |].
    intros Hempty. apply (f_equal (@length A)) in Hempty.
    rewrite length_firstn, length_skipn in Hempty. simpl in Hempty. nia.
  - apply concat_chunks. nia.
Qed.

End PageInfo.

(** ** Sessions and handlers *)

Section HandlerFacts.
Context {P : Primitives} {G : GitHub}.
Local Open Scope string_scope.

Lemma bind_inl {A B : Type} (m : Handler A) (k : A -> Handler B)
      (st st' : State) (a : A) :
  m st = (inl a, st') -> bind m k st = k a st'.
Proof. intros H. unfold bind. now rewrite H. Qed.

Lemma bind_inr {A B : Type} (m : Handler A) (k : A -> Handler B)
      (st st' : State) (resp : Response) :
  m st = (inr resp, st') -> bind m k st = (inr resp, st').
Proof. intros H. unfold bind. now rewrite H. Qed.

Lemma authenticated_ok (c : Context) (st : State) (user : User) :
  getAuthenticatedUser c (authenticatedUsers st) = inl user ->
  authenticated c st = (inl user, st).
Proof. intros H. unfold authenticated. now rewrite H. Qed.

Lemma authenticated_fail (c : Context) (st : State) (msg : string) :
  getAuthenticatedUser c (authenticatedUsers st) = inr msg ->
  authenticated c st
  = (inr (mkResponse StatusUnauthorized (errorBody "Authentication required")),
     st).
Proof. intros H. unfold authenticated. now rewrite H. Qed.

Lemma call_eq {A : Type} (op : World -> A * World) (st : State)
      (a : A) (w : World) :
  op (github st) = (a, w) -> call op st = (inl a, withGithub st w).
Proof. intros H. unfold call. now rewrite H. Qed.

Lemma orFail_ok {A : Type} (op : World -> (A + string) * World)
      (what : string) (st : State) (a : A) (w : World) :
  op (github st) = (inl a, w) -> orFail op what st = (inl a, withGithub st w).
Proof.
  intros H. unfold orFail. now rewrite (bind_inl _ _ _ _ _ (call_eq _ _ _ _ H)).
Qed.

Lemma encrypt_ok (publicKey : PublicKey) (value : string) (st : State)
      (encryptedValue : string) (r : Reader) :
  encryptSecret (GetKey publicKey) value (entropy st) = (Ok encryptedValue, r) ->
  encrypt publicKey value st = (inl encryptedValue, withEntropy st r).
Proof. intros H. unfold encrypt. now rewrite H. Qed.

Lemma encrypt_err (publicKey : PublicKey) (value : string) (st : State)
      (e : error) (r : Reader) :
  encryptSecret (GetKey publicKey) value (entropy st) = (Err e, r) ->
  encrypt publicKey value st
  = (inr (mkResponse StatusInternalServerError
            (errorBody ("Failed to encrypt secret: " ++ errorString e))),
     withStdout (withEntropy st r)
       (stdout st ++ ["Failed to encrypt secret: " ++ errorString e ++ newline])).
Proof. intros H. unfold encrypt. now rewrite H. Qed.

Lemma submitted_result (err : option string) (failure : string) (status : Z)
      (success : string) (st : State) :
  Status (fst (run (submitted err failure status success) st))
  = match err with None => status | Some _ => StatusInternalServerError end
  /\ github (snd (run (submitted err failure status success) st)) = github st
  /\ entropy (snd (run (submitted err failure status success) st)) = entropy st.
Proof. destruct err; repeat split. Qed.

(** [getAuthenticatedUser] gives a user exactly for a non-empty session
    id that the map holds. *)
Lemma getAuthenticatedUser_inl (c : Context) (users : userMap) (user : User) :
  getAuthenticatedUser c users = inl user
  <-> GetHeader c "X-Session-ID" <> ""
      /\ users (GetHeader c "X-Session-ID") = Some user.
Proof.
  unfold getAuthenticatedUser.
  destruct (String.eqb_spec (GetHeader c "X-Session-ID") "") as [He | Hne].
  - split; [discriminate | tauto].
  - destruct (users (GetHeader c "X-Session-ID")) as [u |].
    + split; [intros [= ->]; now split | intros [_ [= ->]]; reflexivity].
    + split; [discriminate | intros [_ H]; discriminate].
Qed.

(** A request without a session, or with one the map does not hold, is
    answered 401 by every handler that needs a user, and nothing is
    touched: no call to GitHub, no entropy drawn, nothing printed. *)
Theorem unauthenticated_untouched (c : Context) (st : State)
        (pair : option (string * string)) (single : option string) :
  GetHeader c "X-Session-ID" = ""
  \/ authenticatedUsers st (GetHeader c "X-Session-ID") = None ->
  let denied :=
    (mkResponse StatusUnauthorized (errorBody "Authentication required"), st) in
  run (createEnvironment c pair) st = denied
  /\ run (createSecret c pair) st = denied
  /\ run (updateSecret c single) st = denied
  /\ run (createEnvironmentSecret c pair) st = denied
  /\ run (updateEnvironmentSecret c single) st = denied.
Proof.
  intros H denied.
  assert (Hauth : exists msg,
             getAuthenticatedUser c (authenticatedUsers st) = inr msg).
  { unfold getAuthenticatedUser. destruct H as [-> | H].
    - simpl. eexists. reflexivity.
    - destruct (String.eqb _ ""); [eexists; reflexivity |].
      rewrite H. eexists. reflexivity. }
  destruct Hauth as [msg Hauth].
  pose proof (authenticated_fail c st msg Hauth) as Hf.
  unfold createEnvironment, createSecret, updateSecret,
    createEnvironmentSecret, updateEnvironmentSecret, run.
  repeat split; now rewrite (bind_inr _ _ _ _ _ Hf).
Qed.

(** After [validateToken] has accepted a token, the session id is
    "session_" followed by the login GitHub reported: a request with
    that id in its header is that user with that token, the response
    is 200, and the other sessions are as before. *)
Theorem validateToken_opens_session (c : Context) (token : string)
        (st : State) (user : GhUser) (w : World) :
  Users_Get token (github st) = (inl user, w) ->
  let result := run (validateToken c (Some token)) st in
  let sessionID := "session_" ++ GetLogin user in
  Status (fst result) = StatusOK
  /\ (forall c' : Context,
         GetHeader c' "X-Session-ID" = sessionID ->
         getAuthenticatedUser c' (authenticatedUsers (snd result))
         = inl (mkUser (GetLogin user) (GetName user) (GetAvatarURL user)
                       token))
  /\ (forall k : string,
         k <> sessionID ->
         authenticatedUsers (snd result) k = authenticatedUsers st k).
Proof.
  intros Hget result sessionID. subst result.
  unfold validateToken, run. cbn [ShouldBindJSON].
  change (bind (ret token) ?k st) with (k token st). cbv beta.
  rewrite (bind_inl _ _ _ _ _ (call_eq _ _ _ _ Hget)).
  cbn [answer fst snd Status authenticatedUsers withUsers withGithub].
  split; [reflexivity |]. split.
  - intros c' Hc'. unfold getAuthenticatedUser. rewrite Hc'.
    fold sessionID. unfold putUser. rewrite String.eqb_refl.
    subst sessionID. reflexivity.
  - intros k Hk. unfold putUser.
    destruct (String.eqb_spec k ("session_" ++ GetLogin user)); [contradiction |].
    reflexivity.
Qed.

(** Every session id in the map is "session_" followed by the login of
    the user stored under it. *)
Definition sessionKeysOk (users : userMap) : Prop :=
  forall (k : string) (u : User),
    users k = Some u -> k = "session_" ++ UserLogin u.

Lemma putUser_keysOk (users : userMap) (u : User) :
  sessionKeysOk users ->
  sessionKeysOk (putUser users ("session_" ++ UserLogin u) u).
Proof.
  intros H k u'. unfold putUser.
  destruct (String.eqb_spec k ("session_" ++ UserLogin u)) as [-> | Hne].
  - now intros [= <-].
  - apply H.
Qed.

(** The two handlers that write the session map keep every key in the
    form "session_" followed by the login of the user stored under it,
    whatever the request and whatever GitHub answers; so the map never
    holds a session for the empty id. *)
Theorem session_keys_kept (c : Context) (bound : option string) (st : State) :
  sessionKeysOk (authenticatedUsers st) ->
  sessionKeysOk (authenticatedUsers (snd (run (validateToken c bound) st)))
  /\ sessionKeysOk
       (authenticatedUsers (snd (run (authenticateWithPAT c bound) st)))
  /\ authenticatedUsers (snd (run (validateToken c bound) st)) "" = None
  /\ authenticatedUsers (snd (run (authenticateWithPAT c bound) st)) "" = None.
Proof.
  intros Hok.
  assert (Hempty : forall users, sessionKeysOk users -> users "" = None).
  { intros users H. destruct (users "") as [u |] eqn:Hu; [| reflexivity].
    apply H in Hu. discriminate. }
  assert (H1 : sessionKeysOk
                 (authenticatedUsers (snd (run (validateToken c bound) st)))).
  { unfold validateToken, run. destruct bound as [token |]; [| exact Hok].
    cbn [ShouldBindJSON]. change (bind (ret token) ?k st) with (k token st).
    cbv beta. unfold bind, call.
    destruct (Users_Get token (github st)) as [[user | e] w]; [| exact Hok].
    cbn [answer snd authenticatedUsers withUsers withGithub].
    apply (putUser_keysOk _ (mkUser _ _ _ _)), Hok. }
  assert (H2 : sessionKeysOk
                 (authenticatedUsers
                    (snd (run (authenticateWithPAT c bound) st)))).
  { unfold authenticateWithPAT, run. destruct bound as [token |]; [| exact Hok].
    cbn [ShouldBindJSON]. change (bind (ret token) ?k st) with (k token st).
    cbv beta. destruct (NewRequest _ _ _) as [req2 | e]; [| exact Hok].
    unfold bind, call.
    destruct (Do _ (github st)) as [[resp | e] w]; [| exact Hok].
    destruct (negb (StatusCode resp =? StatusOK)%Z); [exact Hok |].
    destruct (decodeUserData (ResponseBody resp)) as [userData |];
      [| exact Hok].
    cbn [answer snd authenticatedUsers withUsers withGithub].
    apply (putUser_keysOk _ (mkUser _ _ _ _)), Hok. }
  repeat split; auto.
Qed.

Lemma validateToken_accepts (c : Context) (token : string) (st : State)
      (user : GhUser) (w : World) :
  Users_Get token (github st) = (inl user, w) ->
  snd (run (validateToken c (Some token)) st)
  = withUsers (withGithub st w)
      (putUser (authenticatedUsers st) ("session_" ++ GetLogin user)
         (mkUser (GetLogin user) (GetName user) (GetAvatarURL user) token)).
Proof.
  intros Hget. unfold validateToken, run. cbn [ShouldBindJSON].
  change (bind (ret token) ?k st) with (k token st). cbv beta.
  rewrite (bind_inl _ _ _ _ _ (call_eq _ _ _ _ Hget)).
  reflexivity.
Qed.

(** Logging in and asking for the status compose: with the session id
    that [validateToken] has just handed out, [getAuthStatus] answers
    200 with the login, name and avatar GitHub reported (and not the
    token), and leaves everything as it is. *)
Theorem login_then_status (c c' : Context) (token : string) (st : State)
        (user : GhUser) (w : World) :
  Users_Get token (github st) = (inl user, w) ->
  GetHeader c' "X-Session-ID" = "session_" ++ GetLogin user ->
  let st1 := snd (run (validateToken c (Some token)) st) in
  run (getAuthStatus c') st1
  = (mkResponse StatusOK
       (JObject [("login", JString (GetLogin user));
                 ("name", JString (GetName user));
                 ("avatarUrl", JString (GetAvatarURL user))]),
     st1).
Proof.
  intros Hget Hc' st1. subst st1.
  rewrite (validateToken_accepts c token st user w Hget).
  unfold getAuthStatus, run. cbv zeta. rewrite Hc'.
  change (String.eqb ("session_" ++ GetLogin user) "") with false.
  cbn [authenticatedUsers withUsers withGithub].
  unfold putUser. rewrite String.eqb_refl. reflexivity.
Qed.

End HandlerFacts.

(** ** [createEnvironment] and the secret handlers *)

(** The name check returns, and says true exactly for a valid name. *)
Lemma environmentName_checked (name : string) :
  exists b : bool,
    isValidEnvironmentName name = Some b /\ (b = true <-> validName name).
Proof.
  unfold isValidEnvironmentName, validName, utf8.range.
  rewrite utf8_facts.range_valid.
  destruct ((Z.of_nat (String.length name) <? 1)
            || (Z.of_nat (String.length name) >? 255)) eqn:Hlen.
  - exists false. split; [reflexivity |].
    split; [discriminate |]. intros [Hl _].
    apply orb_true_iff in Hlen. rewrite Z.ltb_lt, Z.gtb_lt in Hlen. lia.
  - apply orb_false_iff in Hlen. rewrite Z.ltb_ge, Z.gtb_ltb, Z.ltb_ge in Hlen.
    destruct (forallb (fun c => validChar (Z_of_byte c)) (bytes name))
      eqn:Hall; cbn [negb].
    + apply forallb_allowed in Hall.
      destruct (bytes name) as [| c rest] eqn:Hbs.
      { pose proof (bytes_length name) as Hl. rewrite Hbs in Hl.
        simpl in Hl. lia. }
      rewrite (strIndex_first name c rest Hbs).
      destruct (exists_last (l := c :: rest) ltac:(discriminate))
        as (front & l & Hfl).
      rewrite (strIndex_last name front l) by (now rewrite Hbs).
      destruct (Ascii.eqb_spec c hyphen) as [-> | Hc].
      * exists false. split; [reflexivity |]. split; [discriminate |].
        intros (_ & _ & Hs & _). exfalso. apply Hs. now exists rest.
      * destruct (Ascii.eqb_spec l hyphen) as [-> | Hl].
        -- exists false. split; [reflexivity |]. split; [discriminate |].
           intros (_ & _ & _ & He). exfalso. apply He.
           exists front. congruence.
        -- exists true. split; [reflexivity |]. split; [| reflexivity].
           intros _. split; [lia |]. split; [exact Hall |].
           split.
           ++ intros [rest' Hr]. congruence.
           ++ intros [front' Hf]. rewrite Hbs, Hfl in Hf.
              apply app_inj_tail in Hf. now destruct Hf.
    + exists false. split; [reflexivity |]. split; [discriminate |].
      intros (_ & HF & _). apply forallb_allowed in HF. congruence.
Qed.

Section SecretHandlerFacts.
Context {P : Primitives} {G : GitHub}.
Local Open Scope string_scope.

(** [createEnvironment] asks GitHub for a deployment only for a valid
    environment name. For a valid name it makes exactly one call,
    [CreateDeployment] on ref "main" with that name and description, and
    answers 201, or 500 with GitHub's error; for any other name it
    answers 400 and makes no call. *)
Theorem createEnvironment_valid_names_only (c : Context)
        (name description : string) (st : State) (user : User) :
  getAuthenticatedUser c (authenticatedUsers st) = inl user ->
  let result := run (createEnvironment c (Some (name, description))) st in
  let deployment :=
    Repositories_CreateDeployment (UserToken user) (Param c "owner")
      (Param c "repo") (mkDeploymentRequest "main" name description)
      (github st) in
  (validName name ->
   snd result = withGithub st (snd deployment)
   /\ fst result
      = match fst deployment with
        | None =>
            mkResponse StatusCreated
              (JObject [("name", JString name);
                        ("description", JString description);
                        ("created_at", JString (now st))])
        | Some e =>
            mkResponse StatusInternalServerError
              (errorBody ("Failed to create environment: " ++ e))
        end)
  /\ (~ validName name ->
      Status (fst result) = StatusBadRequest /\ snd result = st).
Proof.
  intros Hauth result deployment. subst result.
  unfold createEnvironment, run.
  rewrite (bind_inl _ _ _ _ _ (authenticated_ok c st user Hauth)).
  cbn [ShouldBindJSON]. change (bind (ret ?x) ?k st) with (k x st). cbv beta iota.
  destruct (environmentName_checked name) as (b & Hb & Hvalid).
  split.
  - intros Hv. apply Hvalid in Hv. subst b.
    destruct (String.eqb_spec name "") as [-> | Hne]; [discriminate Hb |].
    rewrite Hb. unfold bind, call. fold deployment.
    destruct deployment as [[e |] w]; split; reflexivity.
  - intros Hnv.
    destruct (String.eqb_spec name "") as [-> | Hne]; [split; reflexivity |].
    rewrite Hb. destruct b; [exfalso; apply Hnv, Hvalid; reflexivity |].
    split; reflexivity.
Qed.

(** What [encrypt] hands on when the key is a recipient's public key and
    the entropy arrives: a string that decodes and unseals to the value. *)
Lemma encrypt_sealed (publicKey : PublicKey) (value : string) (st : State)
      (skR : array 32) (seed : list byte) (r' : Reader) :
  hash_available P -> hash_streams P -> box_opens P ->
  base64.DecodeString (GetKey publicKey) = (elems (ScalarBaseMult skR), None) ->
  ReadFull (entropy st) 32 [] = (inl seed, r') ->
  exists (encryptedValue : string) (sealed : list byte),
    encrypt publicKey value st = (inl encryptedValue, withEntropy st r')
    /\ base64.DecodeString encryptedValue = (sealed, None)
    /\ unseal sealed (ScalarBaseMult skR) skR = Some (bytes value).
Proof.
  intros Hh Hs Ho Hd Hr.
  destruct (seal_then_unseal skR (GetKey publicKey) value (entropy st) r' seed
              Hh Hs Ho Hd Hr) as (nonce & Hrun & Hopen).
  do 2 eexists. split; [apply encrypt_ok, Hrun |].
  split; [apply base64_facts.DecodeString_EncodeToString | exact Hopen].
Qed.

Ltac enter Hauth :=
  unfold run;
  rewrite (bind_inl _ _ _ _ _ (authenticated_ok _ _ _ Hauth));
  cbn [ShouldBindJSON];
  change (bind (ret ?x) ?k ?st) with (k x st); cbv beta iota.

Ltac finish :=
  unfold bind, call;
  cbn [github withGithub withEntropy entropy];
  match goal with
  | |- context [Actions_CreateOrUpdateRepoSecret ?t ?o ?r ?s ?w] =>
      destruct (Actions_CreateOrUpdateRepoSecret t o r s w) as [[? |] ?]
  | |- context [Actions_CreateOrUpdateEnvSecret ?t ?o ?r ?s ?w] =>
      destruct (Actions_CreateOrUpdateEnvSecret t o r s w) as [[? |] ?]
  end;
  repeat split.

(** The secret that [createSecret] and [updateSecret] submit carries the
    name of the request, the id of the key GitHub gave, and a value that
    decodes and unseals to the plaintext of the request; it is the one
    call made after the key was fetched, and the answer is 201 (200 for
    the update), or 500 when GitHub refuses it. *)
Theorem repo_secret_submitted_sealed (c : Context) (name value : string)
        (st : State) (user : User) (publicKey : PublicKey) (w1 : World)
        (skR : array 32) (seed : list byte) (r' : Reader) :
  hash_available P -> hash_streams P -> box_opens P ->
  getAuthenticatedUser c (authenticatedUsers st) = inl user ->
  Actions_GetRepoPublicKey (UserToken user) (Param c "owner")
    (Param c "repo") (github st) = (inl publicKey, w1) ->
  base64.DecodeString (GetKey publicKey) = (elems (ScalarBaseMult skR), None) ->
  ReadFull (entropy st) 32 [] = (inl seed, r') ->
  exists (encryptedValue : string) (sealed : list byte),
    base64.DecodeString encryptedValue = (sealed, None)
    /\ unseal sealed (ScalarBaseMult skR) skR = Some (bytes value)
    /\ (let submit :=
          Actions_CreateOrUpdateRepoSecret (UserToken user) (Param c "owner")
            (Param c "repo")
            (mkEncryptedSecret name (GetKeyID publicKey) encryptedValue) w1 in
        let result := run (createSecret c (Some (name, value))) st in
        github (snd result) = snd submit
        /\ entropy (snd result) = r'
        /\ Status (fst result)
           = match fst submit with
             | None => StatusCreated
             | Some _ => StatusInternalServerError
             end)
    /\ (let submit :=
          Actions_CreateOrUpdateRepoSecret (UserToken user) (Param c "owner")
            (Param c "repo")
            (mkEncryptedSecret (Param c "name") (GetKeyID publicKey)
               encryptedValue) w1 in
        let result := run (updateSecret c (Some value)) st in
        github (snd result) = snd submit
        /\ entropy (snd result) = r'
        /\ Status (fst result)
           = match fst submit with
             | None => StatusOK
             | Some _ => StatusInternalServerError
             end).
Proof.
  intros Hh Hs Ho Hauth Hkey Hd Hr.
  destruct (encrypt_sealed publicKey value (withGithub st w1) skR seed r'
              Hh Hs Ho Hd Hr) as (encryptedValue & sealed & Henc & Hdec & Hopen).
  exists encryptedValue, sealed.
  split; [exact Hdec |]. split; [exact Hopen |].
  split; cbv zeta.
  - unfold createSecret. enter Hauth.
    rewrite (bind_inl _ _ _ _ _ (orFail_ok _ _ _ _ _ Hkey)).
    rewrite (bind_inl _ _ _ _ _ Henc). finish.
  - unfold updateSecret. enter Hauth.
    rewrite (bind_inl _ _ _ _ _ (orFail_ok _ _ _ _ _ Hkey)).
    rewrite (bind_inl _ _ _ _ _ Henc). finish.
Qed.

(** The same for the secrets of an environment: the repository id and
    the environment's key are fetched, and the one call after that
    submits the sealed value under that id and environment. *)
Theorem env_secret_submitted_sealed (c : Context) (name value : string)
        (st : State) (user : User) (repositoryID : Z) (publicKey : PublicKey)
        (w1 w2 : World) (skR : array 32) (seed : list byte) (r' : Reader) :
  hash_available P -> hash_streams P -> box_opens P ->
  getAuthenticatedUser c (authenticatedUsers st) = inl user ->
  Repositories_Get (UserToken user) (Param c "owner") (Param c "repo")
    (github st) = (inl repositoryID, w1) ->
  Actions_GetEnvPublicKey (UserToken user) repositoryID (Param c "env") w1
  = (inl publicKey, w2) ->
  base64.DecodeString (GetKey publicKey) = (elems (ScalarBaseMult skR), None) ->
  ReadFull (entropy st) 32 [] = (inl seed, r') ->
  exists (encryptedValue : string) (sealed : list byte),
    base64.DecodeString encryptedValue = (sealed, None)
    /\ unseal sealed (ScalarBaseMult skR) skR = Some (bytes value)
    /\ (let submit :=
          Actions_CreateOrUpdateEnvSecret (UserToken user) repositoryID
            (Param c "env")
            (mkEncryptedSecret name (GetKeyID publicKey) encryptedValue) w2 in
        let result := run (createEnvironmentSecret c (Some (name, value))) st in
        github (snd result) = snd submit
        /\ entropy (snd result) = r'
        /\ Status (fst result)
           = match fst submit with
             | None => StatusCreated
             | Some _ => StatusInternalServerError
             end)
    /\ (let submit :=
          Actions_CreateOrUpdateEnvSecret (UserToken user) repositoryID
            (Param c "env")
            (mkEncryptedSecret (Param c "name") (GetKeyID publicKey)
               encryptedValue) w2 in
        let result := run (updateEnvironmentSecret c (Some value)) st in
        github (snd result) = snd submit
        /\ entropy (snd result) = r'
        /\ Status (fst result)
           = match fst submit with
             | None => StatusOK
             | Some _ => StatusInternalServerError
             end).
Proof.
  intros Hh Hs Ho Hauth Hrepo Hkey Hd Hr.
  destruct (encrypt_sealed publicKey value (withGithub (withGithub st w1) w2)
              skR seed r' Hh Hs Ho Hd Hr)
    as (encryptedValue & sealed & Henc & Hdec & Hopen).
  exists encryptedValue, sealed.
  split; [exact Hdec |]. split; [exact Hopen |].
  assert (Hkey' : Actions_GetEnvPublicKey (UserToken user) repositoryID
                    (Param c "env") (github (withGithub st w1))
                  = (inl publicKey, w2)) by exact Hkey.
  split; cbv zeta.
  - unfold createEnvironmentSecret. enter Hauth.
    rewrite (bind_inl _ _ _ _ _ (orFail_ok _ _ _ _ _ Hrepo)).
    rewrite (bind_inl _ _ _ _ _ (orFail_ok _ _ _ _ _ Hkey')).
    rewrite (bind_inl _ _ _ _ _ Henc). finish.
  - unfold updateEnvironmentSecret. enter Hauth.
    rewrite (bind_inl _ _ _ _ _ (orFail_ok _ _ _ _ _ Hrepo)).
    rewrite (bind_inl _ _ _ _ _ (orFail_ok _ _ _ _ _ Hkey')).
    rewrite (bind_inl _ _ _ _ _ Henc). finish.
Qed.

(** When [encryptSecret] returns an error (a key that is not base64, an
    entropy source that fails), the four secret handlers answer 500 with
    the error's text and submit nothing: GitHub is left as the fetching
    of the key left it. *)
Theorem secret_withheld_when_encryption_fails (c : Context)
        (name value : string) (st : State) (user : User)
        (repoKey envKey : PublicKey) (repositoryID : Z) (w1 w2 w3 : World)
        (e1 e2 : error) (r1 r2 : Reader) :
  getAuthenticatedUser c (authenticatedUsers st) = inl user ->
  Actions_GetRepoPublicKey (UserToken user) (Param c "owner")
    (Param c "repo") (github st) = (inl repoKey, w1) ->
  encryptSecret (GetKey repoKey) value (entropy st) = (Err e1, r1) ->
  Repositories_Get (UserToken user) (Param c "owner") (Param c "repo")
    (github st) = (inl repositoryID, w2) ->
  Actions_GetEnvPublicKey (UserToken user) repositoryID (Param c "env") w2
  = (inl envKey, w3) ->
  encryptSecret (GetKey envKey) value (entropy st) = (Err e2, r2) ->
  let failed (e : error) :=
    mkResponse StatusInternalServerError
      (errorBody ("Failed to encrypt secret: " ++ errorString e)) in
  (fst (run (createSecret c (Some (name, value))) st) = failed e1
   /\ github (snd (run (createSecret c (Some (name, value))) st)) = w1)
  /\ (fst (run (updateSecret c (Some value)) st) = failed e1
      /\ github (snd (run (updateSecret c (Some value)) st)) = w1)
  /\ (fst (run (createEnvironmentSecret c (Some (name, value))) st) = failed e2
      /\ github (snd (run (createEnvironmentSecret c (Some (name, value))) st))
         = w3)
  /\ (fst (run (updateEnvironmentSecret c (Some value)) st) = failed e2
      /\ github (snd (run (updateEnvironmentSecret c (Some value)) st)) = w3).
Proof.
  intros Hauth Hkey Henc1 Hrepo Hekey Henc2 failed.
  assert (Hekey' : Actions_GetEnvPublicKey (UserToken user) repositoryID
                     (Param c "env") (github (withGithub st w2))
                   = (inl envKey, w3)) by exact Hekey.
  pose proof (encrypt_err repoKey value (withGithub st w1) e1 r1 Henc1) as Hf1.
  pose proof (encrypt_err envKey value (withGithub (withGithub st w2) w3)
                e2 r2 Henc2) as Hf2.
  repeat split.
  all: unfold createSecret, updateSecret, createEnvironmentSecret,
         updateEnvironmentSecret; enter Hauth;
       rewrite ?(bind_inl _ _ _ _ _ (orFail_ok _ _ _ _ _ Hkey)),
               ?(bind_inl _ _ _ _ _ (orFail_ok _ _ _ _ _ Hrepo));
       rewrite ?(bind_inl _ _ _ _ _ (orFail_ok _ _ _ _ _ Hekey'));
       rewrite ?(bind_inr _ _ _ _ _ Hf1), ?(bind_inr _ _ _ _ _ Hf2);
       reflexivity.
Qed.

End SecretHandlerFacts.

(** ** [syncVariables] *)

Section SyncFacts.
Context {G : GitHub}.
Local Open Scope string_scope.

(** How much a tally holds: what was synced and what was reported. *)
Definition tallySize (t : Tally) : Z := fst t + Z.of_nat (length (snd t)).

(** What a run of the loops has to show for [n] attempts: each one is
    counted once, as synced or as an error. *)
Definition accounts (before after : Tally) (n : nat) : Prop :=
  tallySize after = tallySize before + Z.of_nat n
  /\ fst before <= fst after <= fst before + Z.of_nat n.

Lemma accounts_refl (t : Tally) : accounts t t 0.
Proof. unfold accounts, tallySize. lia. Qed.

Lemma accounts_trans (a b c : Tally) (n m : nat) :
  accounts a b n -> accounts b c m -> accounts a c (n + m).
Proof. unfold accounts, tallySize. lia. Qed.

Lemma syncOne_accounts (user : User) (targetRepo targetOwner targetRepoName
                        targetEnv : string) (variable : RepoVariable)
      (tally : Tally) (w : World) :
  0 <= fst tally -> fst tally + 1 <= GoInt.max_int ->
  accounts tally
    (fst (syncOne user targetRepo targetOwner targetRepoName targetEnv
            variable tally w)) 1.
Proof.
  intros H0 Hmax. destruct tally as [syncedCount errors]. cbn [fst] in *.
  unfold syncOne, accounts, tallySize.
  destruct (NewRequest _ _ _) as [targetReq | e].
  - destruct (Do _ w) as [[targetResp | e] w'].
    + destruct ((StatusCode targetResp =? StatusCreated)
                || (StatusCode targetResp =? StatusNoContent))%Z;
        cbn [fst snd].
      * unfold GoInt.add. rewrite wrap_in_range
          by (unfold GoInt.in_range, GoInt.min_int, GoInt.max_int in *; lia).
        lia.
      * rewrite length_app. simpl. lia.
    + cbn [fst snd]. rewrite length_app. simpl. lia.
  - cbn [fst snd]. rewrite length_app. simpl. lia.
Qed.

Lemma syncVariablesOf_accounts (user : User) (names : list string)
      (targetRepo targetOwner targetRepoName targetEnv : string)
      (vars : list RepoVariable) :
  forall (tally : Tally) (w : World),
    0 <= fst tally ->
    fst tally + Z.of_nat (length (filter (toSync names) vars))
    <= GoInt.max_int ->
    accounts tally
      (fst (syncVariablesOf user names targetRepo targetOwner targetRepoName
              targetEnv vars tally w))
      (length (filter (toSync names) vars)).
Proof.
  induction vars as [| v vars IH]; intros tally w H0 Hmax.
  - apply accounts_refl.
  - cbn [syncVariablesOf filter] in *.
    destruct (toSync names v).
    + cbn [length] in *.
      pose proof (syncOne_accounts user targetRepo targetOwner targetRepoName
                    targetEnv v tally w H0 ltac:(lia)) as H1.
      destruct (syncOne _ _ _ _ _ _ _ _) as [tally' w']. cbn [fst] in H1.
      change (S (length (filter (toSync names) vars)))
        with (1 + length (filter (toSync names) vars))%nat.
      apply (accounts_trans _ tally'); [exact H1 |].
      destruct H1 as [_ Hb]. apply IH; lia.
    + apply IH; assumption.
Qed.

Lemma syncEnvs_accounts (user : User) (names : list string)
      (targetRepo targetOwner targetRepoName : string)
      (vars : list RepoVariable) (envs : list string) :
  forall (tally : Tally) (w : World),
    0 <= fst tally ->
    fst tally
    + Z.of_nat (length envs * length (filter (toSync names) vars))
    <= GoInt.max_int ->
    accounts tally
      (fst (syncEnvs user names targetRepo targetOwner targetRepoName envs
              vars tally w))
      (length envs * length (filter (toSync names) vars)).
Proof.
  induction envs as [| env envs IH]; intros tally w H0 Hmax.
  - apply accounts_refl.
  - cbn [syncEnvs length Nat.mul] in *.
    pose proof (syncVariablesOf_accounts user names targetRepo targetOwner
                  targetRepoName env vars tally w H0 ltac:(lia)) as H1.
    destruct (syncVariablesOf _ _ _ _ _ _ _ _ _) as [tally' w'].
    cbn [fst] in H1.
    apply (accounts_trans _ tally'); [exact H1 |].
    destruct H1 as [_ Hb]. apply IH; lia.
Qed.

(** The attempts a list of target repositories stands for: one report
    for a string that is not ["owner/repo"], and for each other one a
    PUT per target environment and selected variable. *)
Fixpoint attempts (targetRepos : list string) (nEnvs nSelected : nat) : nat :=
  match targetRepos with
  | [] => 0
  | t :: rest =>
      match ownerAndRepo t with
      | None => 1
      | Some _ => nEnvs * nSelected
      end + attempts rest nEnvs nSelected
  end.

Lemma syncTargets_accounts (user : User) (names : list string)
      (envs : list string) (vars : list RepoVariable)
      (repos : list string) :
  forall (tally : Tally) (w : World),
    0 <= fst tally ->
    fst tally
    + Z.of_nat (attempts repos (length envs)
                  (length (filter (toSync names) vars)))
    <= GoInt.max_int ->
    accounts tally
      (fst (syncTargets user names repos envs vars tally w))
      (attempts repos (length envs) (length (filter (toSync names) vars))).
Proof.
  induction repos as [| t repos IH]; intros tally w H0 Hmax.
  - apply accounts_refl.
  - cbn [syncTargets attempts] in *.
    destruct (ownerAndRepo t) as [[targetOwner targetRepoName] |].
    + pose proof (syncEnvs_accounts user names t targetOwner targetRepoName
                    vars envs tally w H0 ltac:(lia)) as H1.
      destruct (syncEnvs _ _ _ _ _ _ _ _ _) as [tally' w'].
      cbn [fst] in H1.
      apply (accounts_trans _ tally'); [exact H1 |].
      destruct H1 as [_ Hb]. apply IH; lia.
    + apply (accounts_trans _ (fst tally,
                               app (snd tally)
                                 ["Invalid target repo format: " ++ t])).
      * unfold accounts, tallySize. cbn [fst snd].
        rewrite length_app. simpl. lia.
      * apply IH; cbn [fst]; lia.
Qed.

(** Every attempt of a sync is accounted for once: [synced_count] plus
    the number of reported errors is the number of target strings of a
    wrong form plus, for each well-formed target, the number of target
    environments times the number of selected variables; and
    [synced_count] is never negative. *)
Theorem sync_accounts_for_every_attempt (user : User) (names : list string)
        (repos envs : list string) (vars : list RepoVariable) (w : World) :
  let n := attempts repos (length envs)
             (length (filter (toSync names) vars)) in
  Z.of_nat n <= GoInt.max_int ->
  let '(syncedCount, errors) :=
    fst (syncTargets user names repos envs vars (0, []) w) in
  syncedCount + Z.of_nat (length errors) = Z.of_nat n
  /\ 0 <= syncedCount.
Proof.
  intros n Hmax.
  pose proof (syncTargets_accounts user names envs vars repos (0, []) w
                ltac:(cbn; lia) ltac:(cbn [fst]; fold n; lia)) as H.
  fold n in H. destruct (fst (syncTargets _ _ _ _ _ _ _)) as [syncedCount errors].
  unfold accounts, tallySize in H. cbn [fst snd length] in H. lia.
Qed.

Lemma syncTargets_no_envs (user : User) (names : list string)
      (vars : list RepoVariable) (repos : list string) :
  forall (tally : Tally) (w : World),
    syncTargets user names repos [] vars tally w
    = ((fst tally,
        app (snd tally)
          (map (fun t => "Invalid target repo format: " ++ t)
             (filter (fun t => match ownerAndRepo t with
                               | None => true
                               | Some _ => false
                               end) repos))),
       w).
Proof.
  induction repos as [| t repos IH]; intros [syncedCount errors] w.
  - cbn. now rewrite app_nil_r.
  - cbn [syncTargets filter].
    destruct (ownerAndRepo t) as [[targetOwner targetRepoName] |].
    + cbn [syncEnvs]. apply IH.
    + rewrite IH. cbn [fst snd map]. now rewrite <- app_assoc.
Qed.

(** With no target environment nothing is sent and nothing is counted,
    however many well-formed target repositories there are: only the
    ill-formed target strings are reported, in their order. *)
Theorem sync_without_environments (user : User) (names : list string)
        (vars : list RepoVariable) (repos : list string) (w : World) :
  syncTargets user names repos [] vars (0, []) w
  = ((0,
      map (fun t => "Invalid target repo format: " ++ t)
        (filter (fun t => match ownerAndRepo t with
                          | None => true
                          | Some _ => false
                          end) repos)),
     w).
Proof. apply syncTargets_no_envs. Qed.

(** The target environment of an attempt only shows in the text of an
    error. *)
Lemma syncOne_env (user : User) (targetRepo targetOwner targetRepoName
                   env1 env2 : string) (variable : RepoVariable)
      (count : Z) (errors1 errors2 : list string) (w : World) :
  length errors1 = length errors2 ->
  let r1 := syncOne user targetRepo targetOwner targetRepoName env1 variable
              (count, errors1) w in
  let r2 := syncOne user targetRepo targetOwner targetRepoName env2 variable
              (count, errors2) w in
  fst (fst r1) = fst (fst r2)
  /\ length (snd (fst r1)) = length (snd (fst r2))
  /\ snd r1 = snd r2.
Proof.
  intros Hlen. unfold syncOne.
  destruct (NewRequest _ _ _) as [targetReq | e].
  - destruct (Do _ w) as [[targetResp | e] w'].
    + destruct ((StatusCode targetResp =? StatusCreated)
                || (StatusCode targetResp =? StatusNoContent))%Z;
        cbn [fst snd]; rewrite ?length_app; cbn [length]; auto.
    + cbn [fst snd]. rewrite !length_app. cbn [length]. auto.
  - cbn [fst snd]. rewrite !length_app. cbn [length]. auto.
Qed.

Definition sameOutcome (r1 r2 : Tally * World) : Prop :=
  fst (fst r1) = fst (fst r2)
  /\ length (snd (fst r1)) = length (snd (fst r2))
  /\ snd r1 = snd r2.

Lemma syncVariablesOf_env (user : User) (names : list string)
      (targetRepo targetOwner targetRepoName env1 env2 : string)
      (vars : list RepoVariable) :
  forall (t1 t2 : Tally) (w : World),
    sameOutcome (t1, w) (t2, w) ->
    sameOutcome
      (syncVariablesOf user names targetRepo targetOwner targetRepoName env1
         vars t1 w)
      (syncVariablesOf user names targetRepo targetOwner targetRepoName env2
         vars t2 w).
Proof.
  induction vars as [| v vars IH]; intros t1 t2 w Hsame; [exact Hsame |].
  cbn [syncVariablesOf]. destruct (toSync names v); [| now apply IH].
  destruct t1 as [c1 e1], t2 as [c2 e2].
  destruct Hsame as (Hc & He & _). cbn [fst snd] in Hc, He. subst c2.
  pose proof (syncOne_env user targetRepo targetOwner targetRepoName env1 env2
                v c1 e1 e2 w He) as H. cbv zeta in H.
  destruct (syncOne _ _ _ _ env1 _ _ _) as [t1' w1'].
  destruct (syncOne _ _ _ _ env2 _ _ _) as [t2' w2'].
  cbn [fst snd] in H. destruct H as (Hc' & He' & ->).
  apply IH. repeat split; assumption.
Qed.

Lemma syncEnvs_env (user : User) (names : list string)
      (targetRepo targetOwner targetRepoName : string)
      (vars : list RepoVariable) (envs1 : list string) :
  forall (envs2 : list string) (t1 t2 : Tally) (w : World),
    length envs1 = length envs2 ->
    sameOutcome (t1, w) (t2, w) ->
    sameOutcome
      (syncEnvs user names targetRepo targetOwner targetRepoName envs1 vars
         t1 w)
      (syncEnvs user names targetRepo targetOwner targetRepoName envs2 vars
         t2 w).
Proof.
  induction envs1 as [| env1 envs1 IH]; intros [| env2 envs2] t1 t2 w Hlen Hsame;
    try discriminate; [exact Hsame |].
  cbn [syncEnvs].
  pose proof (syncVariablesOf_env user names targetRepo targetOwner
                targetRepoName env1 env2 vars t1 t2 w Hsame) as H.
  destruct (syncVariablesOf _ _ _ _ _ env1 _ _ _) as [t1' w1'].
  destruct (syncVariablesOf _ _ _ _ _ env2 _ _ _) as [t2' w2'].
  destruct H as (Hc & He & Hw). cbn [fst snd] in Hc, He, Hw. subst w2'.
  apply IH; [now injection Hlen |]. repeat split; assumption.
Qed.

Lemma syncTargets_env (user : User) (names : list string)
      (vars : list RepoVariable) (envs1 envs2 : list string)
      (repos : list string) :
  length envs1 = length envs2 ->
  forall (t1 t2 : Tally) (w : World),
    sameOutcome (t1, w) (t2, w) ->
    sameOutcome (syncTargets user names repos envs1 vars t1 w)
                (syncTargets user names repos envs2 vars t2 w).
Proof.
  intros Hlen. induction repos as [| t repos IH]; intros t1 t2 w Hsame;
    [exact Hsame |].
  cbn [syncTargets].
  destruct (ownerAndRepo t) as [[targetOwner targetRepoName] |].
  - pose proof (syncEnvs_env user names t targetOwner targetRepoName vars
                  envs1 envs2 t1 t2 w Hlen Hsame) as H.
    destruct (syncEnvs _ _ _ _ _ envs1 _ _ _) as [t1' w1'].
    destruct (syncEnvs _ _ _ _ _ envs2 _ _ _) as [t2' w2'].
    destruct H as (Hc & He & Hw). cbn [fst snd] in Hc, He, Hw. subst w2'.
    apply IH. repeat split; assumption.
  - apply IH. destruct Hsame as (Hc & He & _).
    unfold sameOutcome. cbn [fst snd] in *.
    rewrite !length_app. cbn [length]. repeat split; [exact Hc | lia].
Qed.

(** The requests of a sync never name a target environment: they go to
    the variables of the target repository.  Two lists of target
    environments of the same length lead to the same calls (the same
    world after them), the same count and as many errors. *)
Theorem sync_ignores_environment_names (user : User) (names : list string)
        (vars : list RepoVariable) (envs1 envs2 repos : list string)
        (w : World) :
  length envs1 = length envs2 ->
  let r1 := syncTargets user names repos envs1 vars (0, []) w in
  let r2 := syncTargets user names repos envs2 vars (0, []) w in
  fst (fst r1) = fst (fst r2)
  /\ length (snd (fst r1)) = length (snd (fst r2))
  /\ snd r1 = snd r2.
Proof.
  intros Hlen. apply syncTargets_env; [exact Hlen |]. repeat split.
Qed.

End SyncFacts.

(** ** [exportVariables] *)

Section ExportFacts.
Context {G : GitHub}.
Local Open Scope string_scope.

Lemma find_last {A : Type} (f : A -> bool) (l : list A) (x : A) :
  find f (l ++ [x])
  = match find f l with
    | Some y => Some y
    | None => if f x then Some x else None
    end.
Proof.
  induction l as [| a l IH]; cbn [app find]; [reflexivity |].
  destruct (f a); [reflexivity | exact IH].
Qed.

Lemma collect_find (variables : list RepoVariable) :
  forall (repoData : stringMap string) (name : string),
    collect variables repoData name
    = match find (fun v => String.eqb (VarName v) name) (rev variables) with
      | Some v => Some (VarValue v)
      | None => repoData name
      end.
Proof.
  induction variables as [| v rest IH]; intros repoData name;
    [reflexivity |].
  cbn [collect rev]. rewrite IH, find_last.
  destruct (find _ (rev rest)) as [v' |]; [reflexivity |].
  unfold mapSet. rewrite String.eqb_sym.
  destruct (String.eqb (VarName v) name); reflexivity.
Qed.

(** Of several variables with one name the export keeps the value of the
    last; a name no variable has is not in the export. *)
Theorem export_last_value_wins (variables : list RepoVariable)
        (name : string) :
  collect variables emptyMap name
  = option_map VarValue
      (find (fun v => String.eqb (VarName v) name) (rev variables)).
Proof.
  rewrite collect_find.
  destruct (find _ (rev variables)); reflexivity.
Qed.




End ExportFacts.

(** ** [syncVariables], the handler *)

Section SyncHandlerFacts.
Context {G : GitHub}.
Local Open Scope string_scope.

(** Once the variables of the source repository were read,
    [syncVariables] answers 200 whatever the targets answered, also
    when no variable could be written: the body carries the count, and
    the key "errors" only when there is an error; GitHub is left as the
    PUTs left it, and sessions, entropy and output are untouched. *)
Theorem syncVariables_answers_200 (c : Context) (req : SyncRequest)
        (st : State) (user : User) (sourceOwner sourceRepo : string)
        (sourceReq : Request) (sourceResp : HttpResponse) (w : World)
        (sourceVariables : list RepoVariable) :
  getAuthenticatedUser c (authenticatedUsers st) = inl user ->
  ownerAndRepo (SourceRepo req) = Some (sourceOwner, sourceRepo) ->
  NewRequest "GET" (variablesURL sourceOwner sourceRepo) "" = inl sourceReq ->
  Do (Header_Set
        (Header_Set sourceReq "Authorization" ("token " ++ UserToken user))
        "Accept" "application/vnd.github.v3+json") (github st)
  = (inl sourceResp, w) ->
  StatusCode sourceResp = StatusOK ->
  decodeVariables (ResponseBody sourceResp) = Some sourceVariables ->
  let done :=
    syncTargets user (VariableNames req) (TargetRepos req) (TargetEnvs req)
      sourceVariables (0, []) w in
  let syncedCount := fst (fst done) in
  let errors := snd (fst done) in
  let result := run (syncVariables c (Some req)) st in
  fst result
  = mkResponse StatusOK
      (JObject
         (app
            [("message",
              JString ("Successfully synced " ++ itoa syncedCount
                       ++ " variables"));
             ("synced_count", JNumber syncedCount)]
            (if (length errors =? 0)%nat then []
             else [("errors", JArray (map JString errors))])))
  /\ snd result = withGithub st (snd done).
Proof.
  intros Hauth Hsplit Hreq Hdo Hstatus Hdec done syncedCount errors result.
  subst result. unfold syncVariables, run.
  rewrite (bind_inl _ _ _ _ _ (authenticated_ok c st user Hauth)).
  cbn [ShouldBindJSON]. change (bind (ret req) ?k st) with (k req st).
  cbv beta. rewrite Hsplit, Hreq. cbv zeta.
  rewrite (bind_inl _ _ _ _ _ (call_eq _ _ _ _ Hdo)).
  rewrite Hstatus, Z.eqb_refl, Hdec. cbn [negb].
  unfold bind, call. cbn [github withGithub].
  fold done. subst syncedCount errors.
  destruct done as [[count errs] w']. cbn [fst snd answer].
  destruct errs; split; reflexivity.
Qed.

End SyncHandlerFacts.

(** ** Runs on the small GitHub *)

Section HandlerRuns.
Local Open Scope string_scope.

Definition octoRequest : Context :=
  ToyHub.request "session_octo" ToyHub.repoParams.

Definition hello (id : Z) : Repository :=
  mkRepository id "hello" "octo/hello" "" false (mkOwner "octo" 7).

Lemma removeDuplicates_fixed_witness :
removeDuplicates [hello 1; hello 2; hello 3] = [hello 1; hello 2; hello 3].
Proof.
apply removeDuplicates_fixed. cbn [map ID hello].
repeat constructor; cbn [In]; intros H;
  repeat (destruct H as [H | H]; [discriminate H |]); exact H.
Defined.

Lemma has_next_iff_next_page_witness :
pg_has_next (paginationInfo (Z.of_nat (length ["a"; "b"; "c"])) 1 2) = true
<-> exists (first : string) (rest : list string),
      paginate ["a"; "b"; "c"] (1 + 1) 2 = Returns (first :: rest).
Proof.
apply has_next_iff_next_page;
  unfold GoInt.max_int; cbn [length Z.of_nat]; lia.
Defined.

Lemma pages_cover_witness :
let all := ["a"; "b"; "c"] in
let n := pg_total_pages (paginationInfo (Z.of_nat (length all)) 1 2) in
n = 2
/\ exists pages : list (list string),
     Z.of_nat (length pages) = n
     /\ (forall i : nat,
            (i < length pages)%nat ->
            paginate all (Z.of_nat i + 1) 2 = Returns (nth i pages [])
            /\ nth i pages [] <> [])
     /\ concat pages = all.
Proof.
split; [reflexivity |].
apply (pages_cover ["a"; "b"; "c"] 2);
  unfold GoInt.max_int; cbn [length Z.of_nat]; lia.
Defined.

Lemma unauthenticated_untouched_witness :
let c := ToyHub.request "session_nobody" ToyHub.repoParams in
let st := ToyHub.loggedIn (Toy.supply Toy.seedA) in
let denied :=
  (mkResponse StatusUnauthorized (errorBody "Authentication required"), st) in
run (createEnvironment (G := ToyHub.hub) c (Some ("API_KEY", "hi"))) st
= denied
/\ run (createSecret (P := Toy.primitives) c (Some ("API_KEY", "hi"))) st
   = denied
/\ run (updateSecret (P := Toy.primitives) c (Some "hi")) st = denied
/\ run (createEnvironmentSecret (P := Toy.primitives) c
          (Some ("API_KEY", "hi"))) st = denied
/\ run (updateEnvironmentSecret (P := Toy.primitives) c (Some "hi")) st
   = denied.
Proof.
apply (unauthenticated_untouched (P := Toy.primitives) (G := ToyHub.hub)).
right. reflexivity.
Defined.

Lemma validateToken_opens_session_witness :
let result :=
  run (validateToken (G := ToyHub.hub) (ToyHub.request "" []) (Some "ghp_good"))
      (ToyHub.fresh Dry) in
Status (fst result) = StatusOK
/\ (forall c' : Context,
       GetHeader c' "X-Session-ID" = "session_octo" ->
       getAuthenticatedUser c' (authenticatedUsers (snd result))
       = inl ToyHub.octoUser)
/\ (forall k : string,
       k <> "session_octo" ->
       authenticatedUsers (snd result) k = noUsers k).
Proof.
apply (validateToken_opens_session (G := ToyHub.hub)
         (ToyHub.request "" []) "ghp_good" (ToyHub.fresh Dry) ToyHub.octo []).
reflexivity.
Defined.

Lemma login_then_status_witness :
let st1 :=
  snd (run (validateToken (G := ToyHub.hub) (ToyHub.request "" [])
              (Some "ghp_good")) (ToyHub.fresh Dry)) in
run (getAuthStatus (G := ToyHub.hub) (ToyHub.request "session_octo" [])) st1
= (mkResponse StatusOK
     (JObject [("login", JString "octo");
               ("name", JString "Octo Cat");
               ("avatarUrl", JString "https://example.test/octo.png")]),
   st1).
Proof.
exact (login_then_status (G := ToyHub.hub) (ToyHub.request "" [])
         (ToyHub.request "session_octo" []) "ghp_good" (ToyHub.fresh Dry)
         ToyHub.octo [] eq_refl eq_refl).
Defined.

Lemma session_keys_kept_witness :
let st := ToyHub.loggedIn Dry in
let c := ToyHub.request "" [] in
sessionKeysOk
  (authenticatedUsers
     (snd (run (validateToken (G := ToyHub.hub) c (Some "ghp_good")) st)))
/\ sessionKeysOk
     (authenticatedUsers
        (snd (run (authenticateWithPAT (G := ToyHub.hub) c (Some "ghp_good"))
                st)))
/\ authenticatedUsers
     (snd (run (validateToken (G := ToyHub.hub) c (Some "ghp_good")) st)) ""
   = None
/\ authenticatedUsers
     (snd (run (authenticateWithPAT (G := ToyHub.hub) c (Some "ghp_good")) st))
     ""
   = None.
Proof.
apply (session_keys_kept (G := ToyHub.hub)).
cbn [authenticatedUsers ToyHub.loggedIn].
apply (putUser_keysOk noUsers ToyHub.octoUser). intros k u H. discriminate H.
Defined.

Lemma createEnvironment_valid_names_only_witness :
let st := ToyHub.loggedIn Dry in
let result :=
  run (createEnvironment (G := ToyHub.hub) octoRequest
         (Some ("prod-1", "Production"))) st in
validName "prod-1"
/\ snd result = st
/\ fst result
   = mkResponse StatusCreated
       (JObject [("name", JString "prod-1");
                 ("description", JString "Production");
                 ("created_at", JString "2024-01-01T00:00:00Z")]).
Proof.
assert (Hvalid : validName "prod-1").
{ destruct (environmentName_checked "prod-1") as (b & Hb & Hiff).
  apply Hiff. vm_compute in Hb. now injection Hb as <-. }
split; [exact Hvalid |].
exact (proj1 (createEnvironment_valid_names_only (G := ToyHub.hub) octoRequest
                "prod-1" "Production" (ToyHub.loggedIn Dry) ToyHub.octoUser
                eq_refl) Hvalid).
Defined.

Lemma repo_secret_submitted_sealed_witness :
let st := ToyHub.loggedIn (Toy.supply (Toy.seedA ++ Toy.seedB)) in
exists (encryptedValue : string) (sealed : list byte),
  base64.DecodeString encryptedValue = (sealed, None)
  /\ unseal (P := Toy.primitives) sealed Toy.recipientPub Toy.recipientPriv
     = Some (bytes "hi")
  /\ (let result :=
        run (createSecret (P := Toy.primitives) (G := ToyHub.hub) octoRequest
               (Some ("DB_PASSWORD", "hi"))) st in
      github (snd result)
      = [mkEncryptedSecret "DB_PASSWORD" "key-1" encryptedValue]
      /\ entropy (snd result) = Toy.supply Toy.seedB
      /\ Status (fst result) = StatusCreated)
  /\ (let result :=
        run (updateSecret (P := Toy.primitives) (G := ToyHub.hub) octoRequest
               (Some "hi")) st in
      github (snd result)
      = [mkEncryptedSecret "API_KEY" "key-1" encryptedValue]
      /\ entropy (snd result) = Toy.supply Toy.seedB
      /\ Status (fst result) = StatusOK).
Proof.
exact (repo_secret_submitted_sealed (P := Toy.primitives) (G := ToyHub.hub)
         octoRequest "DB_PASSWORD" "hi"
         (ToyHub.loggedIn (Toy.supply (Toy.seedA ++ Toy.seedB)))
         ToyHub.octoUser ToyHub.publicKey [] Toy.recipientPriv Toy.seedA
         (Toy.supply Toy.seedB)
         toy_hash_available Toy_facts.Write_app Toy_facts.Open_Seal
         eq_refl eq_refl Toy_facts.recipientPub_decodes
         Toy_facts.ReadFull_seedA).
Defined.

Lemma env_secret_submitted_sealed_witness :
let st := ToyHub.loggedIn (Toy.supply (Toy.seedA ++ Toy.seedB)) in
exists (encryptedValue : string) (sealed : list byte),
  base64.DecodeString encryptedValue = (sealed, None)
  /\ unseal (P := Toy.primitives) sealed Toy.recipientPub Toy.recipientPriv
     = Some (bytes "hi")
  /\ (let result :=
        run (createEnvironmentSecret (P := Toy.primitives) (G := ToyHub.hub)
               octoRequest (Some ("DB_PASSWORD", "hi"))) st in
      github (snd result)
      = [mkEncryptedSecret "DB_PASSWORD" "key-1" encryptedValue]
      /\ entropy (snd result) = Toy.supply Toy.seedB
      /\ Status (fst result) = StatusCreated)
  /\ (let result :=
        run (updateEnvironmentSecret (P := Toy.primitives) (G := ToyHub.hub)
               octoRequest (Some "hi")) st in
      github (snd result)
      = [mkEncryptedSecret "API_KEY" "key-1" encryptedValue]
      /\ entropy (snd result) = Toy.supply Toy.seedB
      /\ Status (fst result) = StatusOK).
Proof.
exact (env_secret_submitted_sealed (P := Toy.primitives) (G := ToyHub.hub)
         octoRequest "DB_PASSWORD" "hi"
         (ToyHub.loggedIn (Toy.supply (Toy.seedA ++ Toy.seedB)))
         ToyHub.octoUser 42 ToyHub.publicKey [] [] Toy.recipientPriv Toy.seedA
         (Toy.supply Toy.seedB)
         toy_hash_available Toy_facts.Write_app Toy_facts.Open_Seal
         eq_refl eq_refl eq_refl Toy_facts.recipientPub_decodes
         Toy_facts.ReadFull_seedA).
Defined.

Lemma secret_withheld_when_encryption_fails_witness :
let st := ToyHub.loggedIn Dry in
let failed :=
  mkResponse StatusInternalServerError
    (errorBody
       "Failed to encrypt secret: failed to generate key pair: EOF") in
let none : list EncryptedSecret := [] in
(fst (run (createSecret (P := Toy.primitives) (G := ToyHub.hub) octoRequest
             (Some ("DB_PASSWORD", "hi"))) st) = failed
 /\ github (snd (run (createSecret (P := Toy.primitives) (G := ToyHub.hub)
                        octoRequest (Some ("DB_PASSWORD", "hi"))) st)) = none)
/\ (fst (run (updateSecret (P := Toy.primitives) (G := ToyHub.hub)
                octoRequest (Some "hi")) st) = failed
    /\ github (snd (run (updateSecret (P := Toy.primitives) (G := ToyHub.hub)
                           octoRequest (Some "hi")) st)) = none)
/\ (fst (run (createEnvironmentSecret (P := Toy.primitives)
                (G := ToyHub.hub) octoRequest (Some ("DB_PASSWORD", "hi")))
           st) = failed
    /\ github (snd (run (createEnvironmentSecret (P := Toy.primitives)
                           (G := ToyHub.hub) octoRequest
                           (Some ("DB_PASSWORD", "hi"))) st)) = none)
/\ (fst (run (updateEnvironmentSecret (P := Toy.primitives)
                (G := ToyHub.hub) octoRequest (Some "hi")) st) = failed
    /\ github (snd (run (updateEnvironmentSecret (P := Toy.primitives)
                           (G := ToyHub.hub) octoRequest (Some "hi")) st))
       = none).
Proof.
exact (secret_withheld_when_encryption_fails (P := Toy.primitives)
         (G := ToyHub.hub) octoRequest "DB_PASSWORD" "hi" (ToyHub.loggedIn Dry)
         ToyHub.octoUser ToyHub.publicKey ToyHub.publicKey 42 [] [] []
         (Errorf "failed to generate key pair: " EOF)
         (Errorf "failed to generate key pair: " EOF) Dry Dry
         eq_refl eq_refl eq_refl eq_refl eq_refl eq_refl).
Defined.

Definition twoVariables : list RepoVariable :=
  [mkRepoVariable "A" "1" "" ""; mkRepoVariable "B" "2" "" ""].

Lemma sync_accounts_for_every_attempt_witness :
let '(syncedCount, errors) :=
  fst (syncTargets (G := ToyHub.hub) ToyHub.octoUser ["A"]
         ["octo/hello"; "bad"; "octo/other"] ["prod"; "dev"] twoVariables
         (0, []) []) in
syncedCount + Z.of_nat (length errors) = 5 /\ 0 <= syncedCount.
Proof.
apply (sync_accounts_for_every_attempt (G := ToyHub.hub) ToyHub.octoUser ["A"]
         ["octo/hello"; "bad"; "octo/other"] ["prod"; "dev"] twoVariables []).
vm_compute. intros H. discriminate H.
Defined.

Lemma sync_ignores_environment_names_witness :
let r1 :=
  syncTargets (G := ToyHub.hub) ToyHub.octoUser []
    ["octo/hello"; "octo/other"] ["prod"; "dev"] twoVariables (0, []) [] in
let r2 :=
  syncTargets (G := ToyHub.hub) ToyHub.octoUser []
    ["octo/hello"; "octo/other"] ["staging"; "qa"] twoVariables (0, []) [] in
fst (fst r1) = fst (fst r2)
/\ length (snd (fst r1)) = length (snd (fst r2))
/\ snd r1 = snd r2.
Proof.
apply (sync_ignores_environment_names (G := ToyHub.hub)). reflexivity.
Defined.

Lemma syncVariables_answers_200_witness :
let req :=
  mkSyncRequest "octo/source" "prod" ["octo/hello"; "bad"; "octo/other"]
    ["prod"] [] false in
let st := ToyHub.loggedIn Dry in
let result :=
  run (syncVariables (G := ToyHub.hub) octoRequest (Some req)) st in
fst result
= mkResponse StatusOK
    (JObject
       [("message", JString "Successfully synced 2 variables");
        ("synced_count", JNumber 2);
        ("errors",
         JArray
           [JString "Invalid target repo format: bad";
            JString "Failed to sync A to octo/other/prod (status: 404)";
            JString "Failed to sync B to octo/other/prod (status: 404)"])])
/\ snd result = st.
Proof.
exact (syncVariables_answers_200 (G := ToyHub.hub) octoRequest
         (mkSyncRequest "octo/source" "prod" ["octo/hello"; "bad"; "octo/other"]
            ["prod"] [] false)
         (ToyHub.loggedIn Dry) ToyHub.octoUser "octo" "source"
         (mkRequest "GET"
            "https://api.github.com/repos/octo/source/actions/variables" [] "")
         (mkHttpResponse 200 "") [] twoVariables
         eq_refl eq_refl eq_refl eq_refl eq_refl eq_refl).
Defined.


End HandlerRuns.
